(** * Quantum algorithm tutorials: classical control code of the two notebooks

    The repository holds two notebooks, [variational_quantum_eigensolver.ipynb]
    and [iterative_phase_estimation.ipynb].  Each one is a short Python script
    that builds circuits, hands them to the SDK's simulator backend and
    post-processes the returned measurement counts.  This development embeds
    that classical code:

    - Python's control flow with exceptions and calls to the backend is a
      state-and-error monad over a [world] that holds the backend's state and
      a ghost trace of the calls made;
    - Python floats are read as exact rationals ([Q]); the constant [np.pi]
      is a parameter [np_pi];
    - the backend ([execute(...).result().get_counts()]) is a parameter of
      the development: a function from a circuit, a shot count and the
      backend's state to the counts dictionary and the next state. *)

From Stdlib Require Import ZArith QArith Qabs Qround Lqa Lia.
From stdpp Require Import base list strings gmap.

Close Scope Q_scope.
Open Scope Z_scope.

(** ** Python values, exceptions and the monad of effectful code *)

Module Py.

Inductive exn : Type :=
| ValueError (msg : string)
| ZeroDivisionError.

Inductive result (A : Type) : Type :=
| Ok (a : A)
| Raise (e : exn).
Arguments Ok {A} a.
Arguments Raise {A} e.

(** A computation reads and updates a world [W] and either returns a value
    or raises. *)
Definition M (W A : Type) : Type := W → result A * W.

Definition ret {W A} (a : A) : M W A := λ w, (Ok a, w).

Definition bind {W A B} (m : M W A) (k : A → M W B) : M W B :=
  λ w, match m w with
       | (Ok a, w') => k a w'
       | (Raise e, w') => (Raise e, w')
       end.

Definition raise {W A} (e : exn) : M W A := λ w, (Raise e, w).

(** Sequencing is written with stdpp's monad notation, [x ← m; k]. *)
#[global] Instance M_ret {W} : MRet (M W) := λ A, ret.
#[global] Instance M_bind {W} : MBind (M W) := λ A B k m, bind m k.

(** The double-quote character, for messages that quote their labels. *)
Definition dq : string := String (Ascii.ascii_of_nat 34) EmptyString.

(** [needle in haystack] on Python strings. *)
Fixpoint contains (needle haystack : string) : bool :=
  if String.prefix needle haystack then true
  else match haystack with
       | EmptyString => false
       | String _ rest => contains needle rest
       end.

(** The zero that [value = 0] denotes at each numeric type. *)
Class Zero (V : Type) : Type := zero : V.
#[global] Instance Zero_Z : Zero Z := 0%Z.
#[global] Instance Zero_Q : Zero Q := 0%Q.

End Py.

Import Py.

(** ** The variational quantum eigensolver notebook *)

Module VQE.

(** Instructions of the one-qubit, one-bit circuits the notebook builds:
    [circuit.rx(θ, q[0])], [circuit.ry(θ, q[0])], [circuit.u2(φ, λ, q[0])]
    and [circuit.measure(q[0], c[0])]. *)
Inductive gate : Type :=
| Rx (theta : Q)
| Ry (theta : Q)
| U2 (phi lam : Q)
| Measure.

Definition circuit : Type := list gate.

(** Ghost trace: which notebook functions were entered and which circuits
    were sent to the backend. *)
Inductive event : Type :=
| EvQuantumModule (measure : string)
| EvVqeCircuit (measure : string)
| EvExecute (c : circuit) (shots : Z).

(** [def get_or_else_zero(d: dict, key: str)] *)
Definition get_or_else_zero {V} `{Zero V} (d : gmap string V) (key : string) : V :=
  let value := zero in
  match d !! key with
  | Some v => v
  | None => value
  end.

(** Sum of all values of a counts dictionary. *)
Definition counts_total (counts : gmap string Z) : Z :=
  map_fold (λ _ v acc, v + acc) 0 counts.

Definition counts_nonneg (counts : gmap string Z) : Prop :=
  map_Forall (λ _ v, 0 ≤ v) counts.

Definition msg_vqe_circuit : string :=
  "Not valid input for measurement: input should be " +:+ dq +:+ "X" +:+ dq
    +:+ " or " +:+ dq +:+ "Y" +:+ dq +:+ " or " +:+ dq +:+ "Z" +:+ dq.

Definition msg_quantum_module : string :=
  "Not valid input for measurement: input should be " +:+ dq +:+ "I" +:+ dq
    +:+ " or " +:+ dq +:+ "X" +:+ dq +:+ " or " +:+ dq +:+ "Z" +:+ dq
    +:+ " or " +:+ dq +:+ "Y" +:+ dq.

Section Notebook.

(** [np.pi] *)
Variable np_pi : Q.

(** The simulator backend: its state, and one run of
    [execute(circuit, backend, shots=shots).result().get_counts()]. *)
Variable simulator : Type.
Variable get_counts : circuit → Z → simulator → gmap string Z * simulator.

Record world : Type := World { sim : simulator; trace : list event }.

Definition log (e : event) : M world unit :=
  λ w, (Ok (), World (sim w) (trace w ++ [e])).

Definition execute (c : circuit) (shots : Z) : M world (gmap string Z) :=
  λ w, let '(counts, s) := get_counts c shots (sim w) in
       (Ok counts, World s (trace w ++ [EvExecute c shots])).

(** [def quantum_state_preparation(circuit, parameters)] *)
Definition quantum_state_preparation (c : circuit) (parameters : Q * Q) : circuit :=
  c ++ [Rx parameters.1; Ry parameters.2].

(** [def vqe_circuit(parameters, measure)] *)
Definition vqe_circuit (parameters : Q * Q) (measure : string) : M world circuit :=
  log (EvVqeCircuit measure);;
  let c := [] in
  let c := quantum_state_preparation c parameters in
  if decide (measure = "Z") then
    ret (c ++ [Measure])
  else if decide (measure = "X") then
    ret (c ++ [U2 0 np_pi; Measure])
  else if decide (measure = "Y") then
    ret (c ++ [U2 0 (np_pi / 2); Measure])
  else
    raise (ValueError msg_vqe_circuit).

(** [def quantum_module(parameters, measure)] *)
Definition quantum_module (parameters : Q * Q) (measure : string) : M world Q :=
  log (EvQuantumModule measure);;
  if decide (measure = "I") then
    ret 1%Q
  else
    c ← (if decide (measure = "Z") then vqe_circuit parameters "Z"
          else if decide (measure = "X") then vqe_circuit parameters "X"
          else if decide (measure = "Y") then vqe_circuit parameters "Y"
          else raise (ValueError msg_quantum_module));
    let shots := 1000 in
    counts ← execute c shots;
    let expectation_value :=
      (inject_Z (get_or_else_zero counts "0" - get_or_else_zero counts "1")
         / inject_Z shots)%Q in
    ret expectation_value.

(** [def vqe(parameters)], with the notebook's global [pauli_dict] as an
    argument. *)
Definition vqe (pauli_dict : gmap string Q) (parameters : Q * Q) : M world Q :=
  mI ← quantum_module parameters "I";
  let quantum_module_I := (get_or_else_zero pauli_dict "I" * mI)%Q in
  mZ ← quantum_module parameters "Z";
  let quantum_module_Z := (get_or_else_zero pauli_dict "Z" * mZ)%Q in
  mX ← quantum_module parameters "X";
  let quantum_module_X := (get_or_else_zero pauli_dict "X" * mX)%Q in
  mY ← quantum_module parameters "Y";
  let quantum_module_Y := (get_or_else_zero pauli_dict "Y" * mY)%Q in
  let classical_adder :=
    (quantum_module_I + quantum_module_Z + quantum_module_X + quantum_module_Y)%Q in
  ret classical_adder.

(** *** Derived notions used to state the properties *)

(** The labels of the estimator calls recorded in a trace, in order. *)
Definition estimator_calls (tr : list event) : list string :=
  omap (λ e, match e with EvQuantumModule m => Some m | _ => None end) tr.

(** The circuits sent to the backend recorded in a trace, in order. *)
Definition executed (tr : list event) : list circuit :=
  omap (λ e, match e with EvExecute c _ => Some c | _ => None end) tr.

(** [(n0 - n1) / shots] for a counts dictionary. *)
Definition expectation (counts : gmap string Z) (shots : Z) : Q :=
  (inject_Z (get_or_else_zero counts "0" - get_or_else_zero counts "1")
     / inject_Z shots)%Q.

(** The message of a [ValueError] names the offending input and every
    label of the accepted set. *)
Definition raises_naming {A} (r : result A) (offending : string)
    (accepted : list string) : Prop :=
  ∃ msg, r = Raise (ValueError msg)
         ∧ contains offending msg = true
         ∧ Forall (λ l, contains l msg = true) accepted.

(** No estimator call is made for a label that the mapping lacks. *)
Definition skips_absent_labels (pauli_dict : gmap string Q)
    (parameters : Q * Q) (w : world) : Prop :=
  ∀ label, pauli_dict !! label = None →
    label ∉ estimator_calls (trace (vqe pauli_dict parameters w).2).

(** Coefficient-weighted sum over the labels of [labels] that are keys of
    the mapping. *)
Definition weighted_sum_present (pauli_dict : gmap string Q)
    (est : string → Q) (labels : list string) : Q :=
  foldr (λ l acc, match pauli_dict !! l with
                  | Some c => (c * est l + acc)%Q
                  | None => acc
                  end) 0%Q labels.

End Notebook.

Arguments World {simulator} sim trace.
Arguments sim {simulator} w.
Arguments trace {simulator} w.

(** A small deterministic backend to run the notebook's functions on: its
    state counts the runs; a circuit with a basis change before the
    measurement yields three quarters of the shots on ["0"], any other
    circuit yields ["0"] on every shot. *)
Definition has_u2 (c : circuit) : bool :=
  existsb (λ g, match g with U2 _ _ => true | _ => false end) c.

Definition demo_backend (c : circuit) (shots : Z) (runs : nat)
    : gmap string Z * nat :=
  if has_u2 c then ({[ "0" := shots - shots / 4; "1" := shots / 4 ]}, S runs)
  else ({[ "0" := shots ]}, S runs).

(** The float [np.pi], as a rational. *)
Definition float_pi : Q := (884279719003555 # 281474976710656)%Q.

(** A fresh backend and an empty trace. *)
Definition demo_world : world nat := World 0%nat [].

End VQE.

(** ** The iterative phase estimation notebook *)

Module IPEA.

(** Instructions of the circuits [k_circ] built on the registers [q], [a]
    and [c] (one qubit or bit each): [k_circ.x(q[0])], [k_circ.h(a[0])],
    one appended copy of the SDK-built circuit [control_H]
    ([k_circ += control_H]), [k_circ.u1(θ, a[0])] and
    [k_circ.measure(a[0], c[0])]. *)
Inductive gate : Type :=
| X_q
| H_a
| Control_H
| U1_a (theta : Q)
| Measure_a_c.

Definition circuit : Type := list gate.

(** A counts dictionary in its iteration order ([max] walks it in that
    order, and the first largest key wins). *)
Definition counts : Type := list (string * Z).

Definition keys (d : counts) : list string := d.*1.

(** [counts.get], used as the [key=] function of [max]. It is only applied
    to keys of the dictionary itself, where it is the stored count; the
    [None] of a missing key is read as 0. *)
Fixpoint get (d : counts) (key : string) : Z :=
  match d with
  | [] => 0
  | (k, v) :: rest => if decide (k = key) then v else get rest key
  end.

(** The loop of the builtin [max(iterable, key=f)]: keep the first item
    whose key value is strictly larger than all before it. *)
Fixpoint max_loop (f : string → Z) (items : list string)
    (max_item : string) (max_val : Z) : string :=
  match items with
  | [] => max_item
  | item :: rest =>
      let val := f item in
      if bool_decide (max_val < val) then max_loop f rest item val
      else max_loop f rest max_item max_val
  end.

Definition max (items : list string) (f : string → Z) : result string :=
  match items with
  | [] => Raise (ValueError "max() arg is an empty sequence")
  | item :: rest => Ok (max_loop f rest item (f item))
  end.

(** [int(s)] on a string of decimal digits, which is what the keys of a
    counts dictionary are; any other text is rejected. *)
Definition digit (c : Ascii.ascii) : option Z :=
  let n := Z.of_nat (Ascii.nat_of_ascii c) in
  if bool_decide (48 ≤ n ≤ 57) then Some (n - 48) else None.

Fixpoint int_loop (s : string) (acc : Z) : option Z :=
  match s with
  | EmptyString => Some acc
  | String c rest =>
      match digit c with
      | Some d => int_loop rest (10 * acc + d)
      | None => None
      end
  end.

Definition int (s : string) : result Z :=
  match s with
  | EmptyString => Raise (ValueError "invalid literal for int() with base 10")
  | _ => match int_loop s 0 with
         | Some z => Ok z
         | None => Raise (ValueError "invalid literal for int() with base 10")
         end
  end.

Definition num_bits_estimate : Z := 10.
Definition t : Z := 1.

Section Notebook.

(** [np.pi] *)
Variable np_pi : Q.

(** The simulator backend: its state, and one run of
    [execute(k_circ, backend, shots=shots).result().get_counts()]. *)
Variable simulator : Type.
Variable get_counts : circuit → Z → simulator → counts * simulator.

(** The trace lists the circuits sent to the backend, with their shot
    counts. *)
Record world : Type := World { sim : simulator; trace : list (circuit * Z) }.

Definition execute (c : circuit) (shots : Z) : M world counts :=
  λ w, let '(cnt, s) := get_counts c shots (sim w) in
       (Ok cnt, World s (trace w ++ [(c, shots)])).

Definition lift {A} (r : result A) : M world A := λ w, (r, w).

(** Steps (1) to (5) of the loop body: the circuit of iteration
    [k_precision], given the phase accumulated so far. *)
Definition k_circ (k_precision : Z) (phase : Q) : circuit :=
  let c := [] in
  let c := c ++ [X_q] in
  let c := c ++ [H_a] in
  let c := c ++ replicate (Z.to_nat (2 ^ k_precision)) Control_H in
  let phase_shift := (2 * np_pi * phase * inject_Z (2 ^ k_precision))%Q in
  let c := c ++ [U1_a (- phase_shift)] in
  let c := c ++ [H_a] in
  c ++ [Measure_a_c].

(** One pass through the body of
    [for k_precision in reversed(range(num_bits_estimate))]. *)
Definition iteration (k_precision : Z) (phase : Q) : M world Q :=
  let c := k_circ k_precision phase in
  cnt ← execute c 1000;
  item ← lift (max (keys cnt) (get cnt));
  value ← lift (int item);
  mret (phase + inject_Z value / inject_Z (2 ^ (k_precision + 1)))%Q.

Fixpoint for_each (ks : list Z) (phase : Q) : M world Q :=
  match ks with
  | [] => mret phase
  | k_precision :: rest =>
      phase' ← iteration k_precision phase;
      for_each rest phase'
  end.

(** [phase = 0] followed by the loop. *)
Definition estimate_phase (num_bits : Z) : M world Q :=
  let phase := 0%Q in
  for_each (reverse (seqZ 0 num_bits)) phase.

(** [eigenvalue = 2 * np.pi * (1 - phase) / t] *)
Definition eigenvalue (phase : Q) (t : Z) : result Q :=
  if bool_decide (t = 0) then Raise ZeroDivisionError
  else Ok (2 * np_pi * (1 - phase) / inject_Z t)%Q.

(** The notebook from [num_bits_estimate = 10] to [eigenvalue]. *)
Definition notebook : M world Q :=
  phase ← estimate_phase num_bits_estimate;
  lift (eigenvalue phase t).

End Notebook.

Arguments World {simulator} sim trace.
Arguments sim {simulator} w.
Arguments trace {simulator} w.

(** *** Derived notions used to state the properties *)

(** Number of copies of [control_H] in a circuit. *)
Fixpoint applications (c : circuit) : Z :=
  match c with
  | [] => 0
  | Control_H :: rest => 1 + applications rest
  | _ :: rest => applications rest
  end.

(** Sum of all values of a counts dictionary. *)
Definition total (d : counts) : Z := foldr (λ kv acc, kv.2 + acc) 0 d.

(** What the backend promises for a one-bit classical register: a
    dictionary (no key twice) over the outcomes ["0"] and ["1"], with
    non-negative counts that add up to the number of shots. *)
Definition one_bit_counts (shots : Z) (d : counts) : Prop :=
  NoDup (keys d)
  ∧ Forall (λ kv, (kv.1 = "0" ∨ kv.1 = "1") ∧ 0 ≤ kv.2) d
  ∧ total d = shots.

Definition honest {simulator} (get_counts : circuit → Z → simulator → counts * simulator)
    : Prop :=
  ∀ c s, one_bit_counts 1000 (get_counts c 1000 s).1.

(** The outcome was measured on more than half of the shots. *)
Definition majority (d : counts) (outcome : string) : Prop :=
  total d < 2 * get d outcome.

(** [int(max(counts, key=counts.get))]: the value recovered from the counts
    of one run. *)
Definition measured_value (d : counts) : result Z :=
  match max (keys d) (get d) with
  | Ok item => int item
  | Raise e => Raise e
  end.

(** Copies of [control_H] over all circuits of a trace. *)
Definition total_applications (tr : list (circuit * Z)) : Z :=
  foldr (λ e acc, applications e.1 + acc) 0 tr.

(** The largest amount the iterations [ks] can add to the phase. *)
Definition weight (ks : list Z) : Q :=
  foldr (λ k acc, (1 / inject_Z (2 ^ (k + 1)) + acc)%Q) 0%Q ks.

(** A noiseless backend for a controlled unitary whose eigenphase is [phi]
    turns: the ancilla picks up [phi] turns per copy of [control_H] and the
    angle of each [u1]; every shot yields ["1"] when the fractional part of
    the result is nearer to a half turn than to a full one, and ["0"]
    otherwise. Its state counts the runs. *)
Fixpoint u1_angles (c : circuit) : Q :=
  match c with
  | [] => 0%Q
  | U1_a theta :: rest => (theta + u1_angles rest)%Q
  | _ :: rest => u1_angles rest
  end.

Definition ideal_backend (np_pi phi : Q) (c : circuit) (shots : Z) (runs : nat)
    : counts * nat :=
  let turns := (inject_Z (applications c) * phi + u1_angles c / (2 * np_pi))%Q in
  let frac := (turns - inject_Z (Qfloor turns))%Q in
  if Qle_bool (1 # 4) frac && negb (Qle_bool (3 # 4) frac)
  then ([("1", shots)], S runs)
  else ([("0", shots)], S runs).

(** The float [np.pi], as a rational. *)
Definition float_pi : Q := (884279719003555 # 281474976710656)%Q.

(** A fresh backend and an empty trace. *)
Definition demo_world : world nat := World 0%nat [].

(** *** Further notions for the behaviour of the loop as a whole *)

(** The phase, in turns, that the ancilla has picked up when it is
    measured, for a controlled unitary of eigenphase [phi] turns: [phi] per
    copy of [control_H], plus the angles of the [u1] rotations. *)
Definition turns (np_pi phi : Q) (c : circuit) : Q :=
  (inject_Z (applications c) * phi + u1_angles c / (2 * np_pi))%Q.

(** A backend is sharp for [phi] when a whole number of turns is always
    read as 0 and a whole number plus a half as 1. *)
Definition sharp {simulator} (np_pi phi : Q)
    (get_counts : circuit → Z → simulator → counts * simulator) : Prop :=
  ∀ c s j b, b = 0 ∨ b = 1 →
    (turns np_pi phi c == inject_Z j + inject_Z b / 2)%Q →
    measured_value (get_counts c 1000 s).1 = Ok b.

(** A backend that reports no outcome at all. *)
Definition silent_backend (c : circuit) (shots : Z) (runs : nat)
    : counts * nat :=
  ([], S runs).

(** *** The estimator as the specification words it

    The definitions below follow the description of the iterative phase
    estimator as a state machine, not the notebook's code; the loop of the
    notebook is compared with them. *)

(** How many shots gave [outcome], summed over the raw entries. *)
Definition shots_of (d : counts) (outcome : string) : Z :=
  foldr (λ kv acc, if String.eqb kv.1 outcome then kv.2 + acc else acc) 0 d.

(** The majority vote over a one-bit register: the bit that more shots
    gave. The specification leaves a tie open; here a tie goes to the bit of
    the first entry. *)
Definition majority_vote (d : counts) : Z :=
  if bool_decide (shots_of d "0" < shots_of d "1") then 1
  else if bool_decide (shots_of d "1" < shots_of d "0") then 0
  else match d with
       | (k, _) :: _ => if String.eqb k "1" then 1 else 0
       | [] => 0
       end.

(** The circuit of the transition for bit index [k]: the eigenstate, a
    Hadamard on the ancilla, the controlled unitary [2^k] times in
    sequence, the feedback rotation by [-2 pi phase 2^k], the second
    Hadamard and the measurement. *)
Definition spec_circuit (np_pi : Q) (k : Z) (phase : Q) : circuit :=
  [X_q; H_a] ++ replicate (Z.to_nat (2 ^ k)) Control_H
    ++ [U1_a (- (2 * np_pi * phase * inject_Z (2 ^ k)))%Q; H_a; Measure_a_c].

(** The state machine with [remaining] bits to go, so that the next bit
    index is [remaining - 1]: run the circuit over 1000 shots, take the
    majority vote [b_k], add [b_k / 2^(k+1)] to the phase, go on with the
    next lower index. It yields the final phase, the backend's final state
    and the runs made, in order. *)
Fixpoint spec_iterations {simulator : Type} (np_pi : Q)
    (get_counts : circuit → Z → simulator → counts * simulator)
    (remaining : nat) (phase : Q) (s : simulator)
    : Q * simulator * list (circuit * Z) :=
  match remaining with
  | O => (phase, s, [])
  | S below =>
      let k := Z.of_nat below in
      let c := spec_circuit np_pi k phase in
      let r := get_counts c 1000 s in
      let b_k := majority_vote r.1 in
      let '(final, s', runs) :=
        spec_iterations np_pi get_counts below
          (phase + inject_Z b_k / inject_Z (2 ^ (k + 1)))%Q r.2 in
      (final, s', (c, 1000) :: runs)
  end.

End IPEA.

(** ** The Hamiltonians of the two notebooks *)

Module Operators.

(** One entry of a list under ['paulis']:
    [{"coeff": {"imag": ..., "real": ...}, "label": ...}]. Such a list is
    what the notebooks pass to [WeightedPauliOperator.from_dict] and what
    [to_dict()] returns; the operator object between the two belongs to the
    SDK, and the list it returns need not be the list it was given. *)
Record pauli : Type := Pauli { label : string; real : Q; imag : Q }.

(** [def hamiltonian_operator(a, b, c, d)] of the eigensolver notebook: the
    list under ['paulis'] that it builds and passes to [from_dict]. *)
Definition hamiltonian_operator (a b c d : Q) : list pauli :=
  [ Pauli "I" a 0; Pauli "Z" b 0; Pauli "X" c 0; Pauli "Y" d 0 ].

(** [def pauli_operator_to_dict(pauli_operator)], on the list under
    ['paulis'] that [pauli_operator.to_dict()] returned. *)
Definition pauli_operator_to_dict (pauli_operator : list pauli) : gmap string Q :=
  let paulis := pauli_operator in
  foldl (λ paulis_dict x,
           let label := label x in
           let coeff := real x in
           <[label := coeff]> paulis_dict) ∅ paulis.

(** [def simple_hamiltonian_operator(E_1, E_2)] of the phase estimation
    notebook: the list under ['paulis'] that it builds and passes to
    [from_dict]. *)
Definition simple_hamiltonian_operator (E_1 E_2 : Q) : list pauli :=
  [ Pauli "Z" ((1 # 2) * (E_1 - E_2)) 0; Pauli "I" ((1 # 2) * (E_1 + E_2)) 0 ].

(** The diagonal of the matrix of a sum of [I] and [Z] terms, with
    [I = diag(1, 1)] and [Z = diag(1, -1)]. *)
Definition diagonal (paulis : list pauli) : Q * Q :=
  foldr (λ x acc,
           if decide (label x = "I") then (real x + acc.1, real x + acc.2)%Q
           else if decide (label x = "Z") then (real x + acc.1, - real x + acc.2)%Q
           else acc) (0%Q, 0%Q) paulis.

End Operators.

(** * Properties of the eigensolver notebook *)

Section VQE_properties.

Import VQE.

Variable np_pi : Q.
Variable simulator : Type.
Variable get_counts : circuit → Z → simulator → gmap string Z * simulator.

Local Abbreviation world := (world simulator).
Local Abbreviation vqe_circuit := (vqe_circuit np_pi simulator).
Local Abbreviation quantum_module := (quantum_module np_pi simulator get_counts).
Local Abbreviation vqe := (vqe np_pi simulator get_counts).

Ltac run := unfold mbind, mret, M_bind, M_ret, bind, ret, raise, log, execute; simpl.

(** The circuit for an accepted measurement: state preparation, basis
    change, measurement; the only effect is the trace entry. *)
Lemma vqe_circuit_accepted (parameters : Q * Q) (measure : string) (w : world) :
  measure ∈ ["X"; "Y"; "Z"] →
  ∃ c, vqe_circuit parameters measure w
       = (Ok c, World (sim w) (trace w ++ [EvVqeCircuit measure]))
       ∧ ∀ w', (vqe_circuit parameters measure w').1 = Ok c.
Proof.
  intros Hm. unfold VQE.vqe_circuit. run.
  repeat case_decide; subst; eauto.
  rewrite !elem_of_cons, elem_of_nil in Hm. intuition congruence.
Qed.

Lemma vqe_circuit_rejected (parameters : Q * Q) (measure : string) (w : world) :
  measure ∉ ["X"; "Y"; "Z"] →
  vqe_circuit parameters measure w
  = (Raise (ValueError msg_vqe_circuit),
     World (sim w) (trace w ++ [EvVqeCircuit measure])).
Proof.
  intros Hm. unfold VQE.vqe_circuit. run.
  rewrite !not_elem_of_cons in Hm.
  repeat case_decide; subst; try done; intuition congruence.
Qed.

(** What one estimator call does for a measured basis. *)
Lemma quantum_module_measured (parameters : Q * Q) (measure : string) (w : world) :
  measure ∈ ["X"; "Y"; "Z"] →
  ∃ c, (∀ w', (vqe_circuit parameters measure w').1 = Ok c)
       ∧ quantum_module parameters measure w
         = (Ok (expectation (get_counts c 1000 (sim w)).1 1000),
            World (get_counts c 1000 (sim w)).2
              (trace w ++ [EvQuantumModule measure; EvVqeCircuit measure;
                           EvExecute c 1000])).
Proof.
  intros Hm.
  assert (Hcases : measure = "X" ∨ measure = "Y" ∨ measure = "Z").
  { rewrite !elem_of_cons, elem_of_nil in Hm. intuition congruence. }
  destruct (vqe_circuit_accepted parameters measure
              (World (sim w) (trace w ++ [EvQuantumModule measure])) Hm)
    as (c & Hc & Hall).
  exists c. split; [done|].
  unfold VQE.quantum_module. run.
  assert (Hsel :
    (if decide (measure = "Z") then vqe_circuit parameters "Z"
     else if decide (measure = "X") then vqe_circuit parameters "X"
     else if decide (measure = "Y") then vqe_circuit parameters "Y"
     else λ w0, (Raise (ValueError msg_quantum_module), w0))
    = vqe_circuit parameters measure).
  { repeat case_decide; subst; try done. intuition congruence. }
  destruct (decide (measure = "I")) as [->|_]; [intuition congruence|].
  rewrite Hsel, Hc. simpl.
  destruct (get_counts c 1000 (sim w)) as [cnt s]. simpl.
  by rewrite <- !app_assoc.
Qed.

Lemma quantum_module_identity (parameters : Q * Q) (w : world) :
  quantum_module parameters "I" w
  = (Ok 1%Q, World (sim w) (trace w ++ [EvQuantumModule "I"])).
Proof.
  unfold VQE.quantum_module, mbind, mret, M_bind, bind, log.
  by destruct (decide ("I" = "I")).
Qed.

Lemma quantum_module_rejected (parameters : Q * Q) (measure : string) (w : world) :
  measure ∉ ["I"; "X"; "Y"; "Z"] →
  quantum_module parameters measure w
  = (Raise (ValueError msg_quantum_module),
     World (sim w) (trace w ++ [EvQuantumModule measure])).
Proof.
  intros Hm. unfold VQE.quantum_module. run.
  rewrite !not_elem_of_cons in Hm.
  repeat case_decide; subst; try done; intuition congruence.
Qed.

(** Only the three measured bases have a circuit. *)
Lemma vqe_circuit_ok_inv (parameters : Q * Q) (measure : string) (w : world)
    (c : circuit) :
  (vqe_circuit parameters measure w).1 = Ok c → measure ∈ ["X"; "Y"; "Z"].
Proof.
  intros Hc. destruct (decide (measure ∈ ["X"; "Y"; "Z"])) as [|Hn]; [done|].
  by rewrite (vqe_circuit_rejected _ _ _ Hn) in Hc.
Qed.

(** The counts of two distinct outcomes fit in the total. *)
Lemma counts_total_delete (counts : gmap string Z) (k : string) (v : Z) :
  counts !! k = Some v →
  counts_total counts = v + counts_total (delete k counts).
Proof.
  intros Hk. unfold counts_total.
  apply (map_fold_delete_L (λ _ v acc, v + acc)); [intros; lia | done].
Qed.

Lemma counts_total_nonneg (counts : gmap string Z) :
  counts_nonneg counts → 0 ≤ counts_total counts.
Proof.
  unfold counts_nonneg, counts_total.
  induction counts as [|k v m Hk IH] using map_ind; intros Hall.
  - by rewrite map_fold_empty.
  - rewrite map_fold_insert_L; [|intros; lia|done].
    apply map_Forall_insert in Hall as [Hv Hm]; [|done].
    specialize (IH Hm). simpl in Hv. lia.
Qed.

Lemma zero_one_within_total (counts : gmap string Z) :
  counts_nonneg counts →
  0 ≤ get_or_else_zero counts "0" ∧ 0 ≤ get_or_else_zero counts "1"
  ∧ get_or_else_zero counts "0" + get_or_else_zero counts "1" ≤ counts_total counts.
Proof.
  intros Hall. unfold get_or_else_zero, zero, Zero_Z.
  destruct (counts !! "0") as [n0|] eqn:H0.
  - rewrite (counts_total_delete _ _ _ H0).
    assert (Hd : counts_nonneg (delete "0" counts)) by by apply map_Forall_delete.
    pose proof (Hall _ _ H0) as Hn0. simpl in Hn0.
    destruct (counts !! "1") as [n1|] eqn:H1.
    + assert (H1' : delete "0" counts !! "1" = Some n1)
        by by rewrite lookup_delete_ne.
      rewrite (counts_total_delete _ _ _ H1').
      pose proof (Hall _ _ H1) as Hn1. simpl in Hn1.
      assert (0 ≤ counts_total (delete "1" (delete "0" counts))).
      { apply counts_total_nonneg. by apply map_Forall_delete. }
      lia.
    + pose proof (counts_total_nonneg _ Hd). lia.
  - destruct (counts !! "1") as [n1|] eqn:H1.
    + rewrite (counts_total_delete _ _ _ H1).
      pose proof (Hall _ _ H1) as Hn1. simpl in Hn1.
      assert (0 ≤ counts_total (delete "1" counts)).
      { apply counts_total_nonneg. by apply map_Forall_delete. }
      lia.
    + pose proof (counts_total_nonneg _ Hall). lia.
Qed.

Lemma ratio_in_unit_range (n0 n1 : Z) :
  0 ≤ n0 → 0 ≤ n1 → n0 + n1 ≤ 1000 →
  (- (1) <= inject_Z (n0 - n1) / inject_Z 1000)%Q
  ∧ (inject_Z (n0 - n1) / inject_Z 1000 <= 1)%Q.
Proof.
  intros H0 H1 Hs. unfold Qle, Qdiv, Qmult, Qinv, inject_Z. simpl. lia.
Qed.

Lemma executed_snoc_call (tr : list event) (m : string) :
  executed (tr ++ [EvQuantumModule m]) = executed tr.
Proof. unfold executed. rewrite omap_app. simpl. by rewrite app_nil_r. Qed.

(** C1 (amended): [vqe] returns the coefficient-weighted sum of the four
    estimator results, which is the weighted sum over the labels of I, Z, X, Y
    that are keys of the mapping, since a missing label has coefficient zero;
    the estimator is nevertheless called once for each of the four labels, in
    the order I, Z, X, Y, whether or not the label is a key, and the backend
    runs three circuits. *)
Theorem vqe_weighted_sum_calls_all_labels (pauli_dict : gmap string Q)
    (parameters : Q * Q) (w : world) :
  ∃ mZ mX mY w1 w2 w3 w4,
    quantum_module parameters "I" w = (Ok 1%Q, w1)
    ∧ quantum_module parameters "Z" w1 = (Ok mZ, w2)
    ∧ quantum_module parameters "X" w2 = (Ok mX, w3)
    ∧ quantum_module parameters "Y" w3 = (Ok mY, w4)
    ∧ vqe pauli_dict parameters w
      = (Ok (get_or_else_zero pauli_dict "I" * 1
             + get_or_else_zero pauli_dict "Z" * mZ
             + get_or_else_zero pauli_dict "X" * mX
             + get_or_else_zero pauli_dict "Y" * mY)%Q, w4)
    ∧ (get_or_else_zero pauli_dict "I" * 1
       + get_or_else_zero pauli_dict "Z" * mZ
       + get_or_else_zero pauli_dict "X" * mX
       + get_or_else_zero pauli_dict "Y" * mY
       == weighted_sum_present pauli_dict
            (λ l, if decide (l = "I") then 1
                  else if decide (l = "Z") then mZ
                  else if decide (l = "X") then mX else mY)
            ["I"; "Z"; "X"; "Y"])%Q
    ∧ (∀ label, pauli_dict !! label = None →
         get_or_else_zero pauli_dict label = 0%Q)
    ∧ estimator_calls (trace w4)
      = estimator_calls (trace w) ++ ["I"; "Z"; "X"; "Y"]
    ∧ length (executed (trace w4)) = (length (executed (trace w)) + 3)%nat.
Proof.
  pose proof (quantum_module_identity parameters w) as HI.
  set (w1 := World (sim w) (trace w ++ [EvQuantumModule "I"])) in *.
  destruct (quantum_module_measured parameters "Z" w1) as (cZ & _ & HZ).
  { rewrite !elem_of_cons. auto. }
  set (w2 := World (get_counts cZ 1000 (sim w1)).2 _) in HZ.
  destruct (quantum_module_measured parameters "X" w2) as (cX & _ & HX).
  { rewrite !elem_of_cons. auto. }
  set (w3 := World (get_counts cX 1000 (sim w2)).2 _) in HX.
  destruct (quantum_module_measured parameters "Y" w3) as (cY & _ & HY).
  { rewrite !elem_of_cons. auto. }
  set (w4 := World (get_counts cY 1000 (sim w3)).2 _) in HY.
  eexists _, _, _, w1, w2, w3, w4.
  split; [exact HI|]. split; [exact HZ|]. split; [exact HX|]. split; [exact HY|].
  split.
  { unfold VQE.vqe, mbind, M_bind, bind, mret, M_ret, ret.
    by rewrite HI, HZ, HX, HY. }
  split.
  { unfold weighted_sum_present, get_or_else_zero, zero, Zero_Q. simpl.
    repeat match goal with
           | |- context [decide (?a = ?b)] => destruct (decide (a = b)); try discriminate
           end.
    destruct (pauli_dict !! "I"), (pauli_dict !! "Z"),
      (pauli_dict !! "X"), (pauli_dict !! "Y"); ring. }
  split.
  { intros label Hl. unfold get_or_else_zero. by rewrite Hl. }
  split.
  { subst w4 w3 w2 w1. unfold estimator_calls. simpl.
    rewrite !omap_app. simpl. by rewrite <- !app_assoc. }
  { subst w4 w3 w2 w1. unfold executed. simpl.
    rewrite !omap_app. simpl. rewrite !length_app. simpl. lia. }
Qed.

(** C2 (amended): outside the accepted set the call raises [ValueError]
    with one fixed text per call site: [vqe_circuit] rejects everything but
    X, Y, Z, and [quantum_module] everything but I, X, Y, Z. The text names
    every label of the site's accepted set; it is the same for every
    offending input and does not repeat that input. *)
Theorem unknown_basis_fixed_message (parameters : Q * Q) (measure : string)
    (w : world) :
  measure ∉ ["X"; "Y"; "Z"] →
  (vqe_circuit parameters measure w).1 = Raise (ValueError msg_vqe_circuit)
  ∧ (measure ≠ "I" →
     (quantum_module parameters measure w).1
     = Raise (ValueError msg_quantum_module))
  ∧ Forall (λ l, contains l msg_vqe_circuit = true) ["X"; "Y"; "Z"]
  ∧ Forall (λ l, contains l msg_quantum_module = true) ["I"; "X"; "Y"; "Z"].
Proof.
  intros Hm. split; [by rewrite vqe_circuit_rejected|].
  split.
  { intros HI. rewrite quantum_module_rejected; [done|].
    rewrite not_elem_of_cons. done. }
  split; repeat constructor.
Qed.

(** C4: when the backend returns non-negative counts that add up to the
    1000 shots, the estimator returns [(n0 - n1) / 1000], with [n0] and [n1]
    the counts of ["0"] and ["1"] and 0 for a missing outcome, and that value
    lies between -1 and 1. *)
Theorem expectation_from_counts (parameters : Q * Q) (measure : string)
    (w : world) (c : circuit) (counts : gmap string Z) (s' : simulator) :
  (vqe_circuit parameters measure w).1 = Ok c →
  get_counts c 1000 (sim w) = (counts, s') →
  counts_nonneg counts →
  counts_total counts = 1000 →
  let n0 := default 0 (counts !! "0") in
  let n1 := default 0 (counts !! "1") in
  (quantum_module parameters measure w).1
  = Ok (inject_Z (n0 - n1) / inject_Z 1000)%Q
  ∧ (- (1) <= inject_Z (n0 - n1) / inject_Z 1000)%Q
  ∧ (inject_Z (n0 - n1) / inject_Z 1000 <= 1)%Q.
Proof.
  intros Hc Hrun Hnn Htot n0 n1.
  pose proof (vqe_circuit_ok_inv _ _ _ _ Hc) as Hm.
  destruct (quantum_module_measured parameters measure w Hm) as (c' & Hc' & Hq).
  assert (c' = c) as -> by (specialize (Hc' w); congruence).
  assert (Hn0 : get_or_else_zero counts "0" = n0).
  { unfold get_or_else_zero, n0. by destruct (counts !! "0"). }
  assert (Hn1 : get_or_else_zero counts "1" = n1).
  { unfold get_or_else_zero, n1. by destruct (counts !! "1"). }
  split.
  { rewrite Hq, Hrun. simpl. unfold expectation. by rewrite Hn0, Hn1. }
  pose proof (zero_one_within_total counts Hnn) as (H0 & H1 & Hs).
  rewrite Hn0, Hn1, Htot in *.
  by apply ratio_in_unit_range.
Qed.

(** C5: with basis ["I"] the estimator returns exactly 1 for every
    parameter pair and every backend, without building a circuit and without
    a backend run: the backend's state is untouched and the only trace entry
    is the call itself. *)
Theorem identity_basis_returns_one (parameters : Q * Q) (w : world) :
  (quantum_module parameters "I" w).1 = Ok 1%Q
  ∧ sim (quantum_module parameters "I" w).2 = sim w
  ∧ trace (quantum_module parameters "I" w).2 = trace w ++ [EvQuantumModule "I"]
  ∧ executed (trace (quantum_module parameters "I" w).2) = executed (trace w).
Proof.
  rewrite quantum_module_identity. simpl.
  by rewrite executed_snoc_call.
Qed.

(** C6: for a basis label outside I, X, Y, Z and any parameter pair the
    estimator raises [ValueError]; no circuit is built and none is executed:
    the backend's state is untouched and the only trace entry is the call
    itself. *)
Theorem unknown_basis_raises_before_any_circuit (parameters : Q * Q)
    (measure : string) (w : world) :
  measure ∉ ["I"; "X"; "Y"; "Z"] →
  (∃ msg, (quantum_module parameters measure w).1 = Raise (ValueError msg))
  ∧ sim (quantum_module parameters measure w).2 = sim w
  ∧ trace (quantum_module parameters measure w).2
    = trace w ++ [EvQuantumModule measure]
  ∧ executed (trace (quantum_module parameters measure w).2)
    = executed (trace w).
Proof.
  intros Hm. rewrite (quantum_module_rejected _ _ _ Hm). simpl.
  rewrite executed_snoc_call. eauto.
Qed.

End VQE_properties.

(** ** The eigensolver on a concrete backend *)

Example vqe_on_z_hamiltonian :
  (VQE.vqe VQE.float_pi nat VQE.demo_backend {[ "Z" := (3 # 5)%Q ]}
     (0%Q, 0%Q) VQE.demo_world).1
  = Ok ((0 * 1 + (3 # 5) * (inject_Z (1000 - 0) / inject_Z 1000)
         + 0 * (inject_Z (1000 - 1000 / 4 - 1000 / 4) / inject_Z 1000)
         + 0 * (inject_Z (1000 - 1000 / 4 - 1000 / 4) / inject_Z 1000)))%Q.
Proof. reflexivity. Qed.

(** C1, as stated, fails: the mapping with the terms I, Z and X has no
    entry for ["Y"], yet the trace of [vqe] records an estimator call for
    ["Y"]. *)
Lemma vqe_calls_estimator_for_absent_label :
  ¬ VQE.skips_absent_labels VQE.float_pi nat VQE.demo_backend
      {[ "I" := (2 # 5)%Q; "Z" := (3 # 5)%Q; "X" := (4 # 5)%Q ]}
      (0%Q, 0%Q) VQE.demo_world.
Proof.
  intros Hskip. apply (Hskip "Y"); [reflexivity|].
  assert (Hcalls :
    VQE.estimator_calls
      (VQE.trace (VQE.vqe VQE.float_pi nat VQE.demo_backend
                    {[ "I" := (2 # 5)%Q; "Z" := (3 # 5)%Q; "X" := (4 # 5)%Q ]}
                    (0%Q, 0%Q) VQE.demo_world).2)
    = ["I"; "Z"; "X"; "Y"]) by reflexivity.
  rewrite Hcalls, !elem_of_cons. auto.
Qed.

(** C2, as stated, fails: the message raised for the unknown basis ["Q"]
    does not contain that input. *)
Lemma unknown_basis_message_omits_input :
  ¬ VQE.raises_naming
      (VQE.quantum_module VQE.float_pi nat VQE.demo_backend (0%Q, 0%Q) "Q"
         VQE.demo_world).1
      "Q" ["I"; "X"; "Y"; "Z"].
Proof.
  intros (msg & Hraise & Hnames & _).
  assert (Hmsg : msg = VQE.msg_quantum_module).
  { vm_compute in Hraise. by injection Hraise as <-. }
  subst msg. vm_compute in Hnames. discriminate.
Qed.

Lemma unknown_basis_fixed_message_witness :
  (VQE.vqe_circuit VQE.float_pi nat (0%Q, 0%Q) "Q" VQE.demo_world).1
  = Raise (ValueError VQE.msg_vqe_circuit).
Proof.
  apply (unknown_basis_fixed_message VQE.float_pi nat VQE.demo_backend
           (0%Q, 0%Q) "Q" VQE.demo_world).
  rewrite !not_elem_of_cons. repeat split; (discriminate || apply not_elem_of_nil).
Defined.

Lemma expectation_from_counts_witness :
  (VQE.quantum_module VQE.float_pi nat VQE.demo_backend (0%Q, 0%Q) "X"
     VQE.demo_world).1
  = Ok (inject_Z (750 - 250) / inject_Z 1000)%Q
  ∧ (- (1) <= inject_Z (750 - 250) / inject_Z 1000)%Q
  ∧ (inject_Z (750 - 250) / inject_Z 1000 <= 1)%Q.
Proof.
  refine (expectation_from_counts VQE.float_pi nat VQE.demo_backend
            (0%Q, 0%Q) "X" VQE.demo_world
            [VQE.Rx 0; VQE.Ry 0; VQE.U2 0 VQE.float_pi; VQE.Measure]
            {[ "0" := 750; "1" := 250 ]} 1%nat _ _ _ _).
  - reflexivity.
  - reflexivity.
  - unfold VQE.counts_nonneg. apply (bool_decide_unpack _). vm_compute. exact I.
  - reflexivity.
Defined.

Lemma unknown_basis_raises_before_any_circuit_witness :
  VQE.trace (VQE.quantum_module VQE.float_pi nat VQE.demo_backend (0%Q, 0%Q)
               "Q" VQE.demo_world).2
  = [] ++ [VQE.EvQuantumModule "Q"].
Proof.
  apply (unknown_basis_raises_before_any_circuit VQE.float_pi nat
           VQE.demo_backend (0%Q, 0%Q) "Q" VQE.demo_world).
  rewrite !not_elem_of_cons. repeat split; (discriminate || apply not_elem_of_nil).
Defined.

(** * Properties of the phase estimation notebook *)

(** ** Counting, [max] and [int] *)

Lemma applications_app (c1 c2 : IPEA.circuit) :
  IPEA.applications (c1 ++ c2) = IPEA.applications c1 + IPEA.applications c2.
Proof.
  induction c1 as [|g c1 IH]; simpl; [lia|].
  destruct g; lia.
Qed.

Lemma applications_replicate (n : nat) :
  IPEA.applications (replicate n IPEA.Control_H) = Z.of_nat n.
Proof. induction n as [|n IH]; simpl; lia. Qed.

Lemma get_nonneg (d : IPEA.counts) (k : string) :
  Forall (λ kv, 0 ≤ kv.2) d → 0 ≤ IPEA.get d k.
Proof.
  induction 1 as [|[k0 v] d Hv _ IH]; simpl; [lia|].
  case_decide; simpl in *; lia.
Qed.

Lemma total_nonneg (d : IPEA.counts) :
  Forall (λ kv, 0 ≤ kv.2) d → 0 ≤ IPEA.total d.
Proof.
  induction 1 as [|[k0 v] d Hv _ IH]; unfold IPEA.total in *; simpl in *; lia.
Qed.

Lemma get_le_total (d : IPEA.counts) (k : string) :
  Forall (λ kv, 0 ≤ kv.2) d → IPEA.get d k ≤ IPEA.total d.
Proof.
  induction 1 as [|[k0 v] d Hv Hd IH]; simpl; [done|].
  pose proof (total_nonneg d Hd).
  unfold IPEA.total in *. case_decide; simpl in *; lia.
Qed.

(** Two different outcomes cannot both hold more than half of the shots. *)
Lemma get_pair_le_total (d : IPEA.counts) (k k' : string) :
  Forall (λ kv, 0 ≤ kv.2) d → k ≠ k' →
  IPEA.get d k + IPEA.get d k' ≤ IPEA.total d.
Proof.
  intros Hd Hne. induction Hd as [|[k0 v] d Hv Hd IH]; simpl; [done|].
  pose proof (get_le_total d k Hd). pose proof (get_le_total d k' Hd).
  unfold IPEA.total in *. repeat case_decide; subst; simpl in *; try lia.
  congruence.
Qed.

Lemma max_loop_elem (f : string → Z) (items : list string) (x : string) (v : Z) :
  IPEA.max_loop f items x v ∈ x :: items.
Proof.
  revert x v. induction items as [|y items IH]; intros x v; simpl.
  - apply list_elem_of_here.
  - case_bool_decide.
    + apply list_elem_of_further, IH.
    + specialize (IH x v). rewrite !elem_of_cons in *. tauto.
Qed.

(** An item whose key value beats every other one is what the loop ends
    with. *)
Lemma max_loop_strict (f : string → Z) (best : string) (items : list string)
    (x : string) :
  (∀ y, y ≠ best → f y < f best) →
  best ∈ x :: items →
  IPEA.max_loop f items x (f x) = best.
Proof.
  intros Hbest. revert x. induction items as [|y items IH]; intros x Hin; simpl.
  - rewrite elem_of_cons, elem_of_nil in Hin. intuition.
  - rewrite !elem_of_cons in Hin.
    case_bool_decide as Hlt.
    + apply IH. rewrite elem_of_cons.
      destruct (decide (best = y)) as [|Hy]; [by left|right].
      destruct Hin as [->|[->|Hin]]; [|done..].
      specialize (Hbest y ltac:(congruence)). lia.
    + apply IH. rewrite elem_of_cons.
      destruct (decide (best = x)) as [|Hx]; [by left|right].
      destruct Hin as [->|[->|Hin]]; [done| |done].
      specialize (Hbest x ltac:(congruence)). lia.
Qed.

Lemma max_majority (d : IPEA.counts) (outcome : string) :
  Forall (λ kv, 0 ≤ kv.2) d →
  IPEA.majority d outcome →
  IPEA.max (IPEA.keys d) (IPEA.get d) = Ok outcome.
Proof.
  intros Hd Hmaj. unfold IPEA.majority in Hmaj.
  assert (Hbest : ∀ y, y ≠ outcome → IPEA.get d y < IPEA.get d outcome).
  { intros y Hy. pose proof (get_pair_le_total d y outcome Hd Hy). lia. }
  assert (Hin : outcome ∈ IPEA.keys d).
  { pose proof (total_nonneg d Hd) as Ht.
    assert (Hpos : 0 < IPEA.get d outcome) by lia.
    clear -Hpos. induction d as [|[k v] d IH]; simpl in *; [lia|].
    case_decide; subst; [apply list_elem_of_here|].
    apply list_elem_of_further, IH, Hpos. }
  unfold IPEA.max. destruct (IPEA.keys d) as [|x items] eqn:Hk.
  - by apply elem_of_nil in Hin.
  - f_equal. by apply max_loop_strict.
Qed.

(** On the counts of a one-bit register the recovered value is a bit. *)
Lemma measured_value_bit (d : IPEA.counts) :
  IPEA.one_bit_counts 1000 d →
  ∃ b, (b = 0 ∨ b = 1) ∧ IPEA.measured_value d = Ok b.
Proof.
  intros (_ & Hkeys & Htot). unfold IPEA.measured_value, IPEA.max.
  destruct d as [|[k v] d]; [discriminate|]. simpl.
  pose proof (max_loop_elem (IPEA.get ((k, v) :: d)) (IPEA.keys d) k
                (IPEA.get ((k, v) :: d) k)) as Hin.
  set (item := IPEA.max_loop _ _ _ _) in *.
  assert (Hitem : item = "0" ∨ item = "1").
  { change (k :: IPEA.keys d) with (IPEA.keys ((k, v) :: d)) in Hin.
    unfold IPEA.keys in Hin. apply list_elem_of_fmap in Hin as ([k' v'] & -> & Hin).
    rewrite Forall_forall in Hkeys. by destruct (Hkeys _ Hin). }
  destruct Hitem as [-> | ->]; [exists 0 | exists 1]; auto.
Qed.

(** What [int(max(counts, key=counts.get))] yields on the counts of a
    one-bit register is the majority vote over the raw entries. *)
Lemma measured_value_vote (d : IPEA.counts) :
  IPEA.one_bit_counts 1000 d →
  IPEA.measured_value d = Ok (IPEA.majority_vote d).
Proof.
  intros (Hnd & Hkeys & Htot).
  destruct d as [|[k1 v1] d]; [discriminate|].
  apply Forall_cons in Hkeys as [[Hk1 Hv1] Hkeys]. simpl in Hk1, Hv1.
  destruct d as [|[k2 v2] d].
  { unfold IPEA.total in Htot. simpl in Htot.
    destruct Hk1 as [-> | ->];
      unfold IPEA.measured_value, IPEA.majority_vote; simpl;
      repeat case_bool_decide; (reflexivity || lia). }
  apply Forall_cons in Hkeys as [[Hk2 Hv2] Hkeys]. simpl in Hk2, Hv2.
  unfold IPEA.keys in Hnd. simpl in Hnd.
  apply NoDup_cons in Hnd as [Hn1 Hnd]. apply NoDup_cons in Hnd as [Hn2 Hnd].
  rewrite not_elem_of_cons in Hn1. destruct Hn1 as [Hne Hn1].
  destruct d as [|[k3 v3] d].
  { unfold IPEA.total in Htot. simpl in Htot.
    destruct Hk1 as [-> | ->], Hk2 as [-> | ->]; try done;
      unfold IPEA.measured_value, IPEA.majority_vote; simpl;
      repeat case_bool_decide; (reflexivity || lia). }
  exfalso.
  apply Forall_cons in Hkeys as [[Hk3 _] _]. simpl in Hk3, Hn1, Hn2.
  rewrite not_elem_of_cons in Hn1, Hn2.
  destruct Hk1 as [-> | ->], Hk2 as [-> | ->], Hk3 as [-> | ->];
    intuition congruence.
Qed.

Lemma shots_of_zero_one (d : IPEA.counts) :
  Forall (λ kv, (kv.1 = "0" ∨ kv.1 = "1") ∧ 0 ≤ kv.2) d →
  IPEA.shots_of d "0" + IPEA.shots_of d "1" = IPEA.total d
  ∧ 0 ≤ IPEA.shots_of d "0" ∧ 0 ≤ IPEA.shots_of d "1".
Proof.
  unfold IPEA.total.
  induction 1 as [|[k v] d [Hk Hv] _ IH]; simpl in *; [lia|].
  destruct Hk as [-> | ->]; simpl; lia.
Qed.

Lemma shots_of_entry (d : IPEA.counts) (k : string) (v : Z) :
  Forall (λ kv, (kv.1 = "0" ∨ kv.1 = "1") ∧ 0 ≤ kv.2) d →
  (k, v) ∈ d → v ≤ IPEA.shots_of d k.
Proof.
  intros Hd Hin.
  induction Hd as [|[k0 v0] d [Hk0 Hv0] Hd IH]; [by apply elem_of_nil in Hin|].
  pose proof (shots_of_zero_one d Hd) as (_ & H0 & H1).
  assert (Hnn : 0 ≤ IPEA.shots_of d k).
  { clear -Hd. induction Hd as [|[k1 v1] d [_ Hv1] _ IH]; simpl in *; [lia|].
    destruct (String.eqb k1 k); lia. }
  apply elem_of_cons in Hin as [Heq|Hin].
  - simplify_eq. simpl. rewrite String.eqb_refl. lia.
  - specialize (IH Hin). simpl in *. destruct (String.eqb k0 k); lia.
Qed.

(** More than half of the 1000 shots on one bit settles the value. *)
Lemma measured_value_more_than_half (d : IPEA.counts) (n : Z) :
  IPEA.one_bit_counts 1000 d → 500 < n →
  ((("1", n) ∈ d → IPEA.measured_value d = Ok 1)
   ∧ (("0", n) ∈ d → IPEA.measured_value d = Ok 0)).
Proof.
  intros Hd Hn. pose proof Hd as (_ & Hkeys & Htot).
  pose proof (shots_of_zero_one d Hkeys) as (Hsum & H0 & H1).
  rewrite (measured_value_vote d Hd). unfold IPEA.majority_vote.
  split; intros Hin; pose proof (shots_of_entry d _ _ Hkeys Hin);
    repeat case_bool_decide; (reflexivity || lia).
Qed.

Lemma majority_bit_recovered (d : IPEA.counts) (outcome : string) (b : Z) :
  Forall (λ kv, 0 ≤ kv.2) d →
  IPEA.majority d outcome →
  IPEA.int outcome = Ok b →
  IPEA.measured_value d = Ok b.
Proof.
  intros Hd Hmaj Hint. unfold IPEA.measured_value.
  by rewrite (max_majority d outcome Hd Hmaj).
Qed.

(** ** Arithmetic of the phase increments *)

Lemma pow2_positive (k : Z) : 0 ≤ k → 0 < 2 ^ k.
Proof. intros. by apply Z.pow_pos_nonneg. Qed.

Lemma increment_bounds (b z : Z) :
  0 < z → 0 ≤ b ≤ 1 →
  (0 <= inject_Z b / inject_Z z)%Q
  ∧ (inject_Z b / inject_Z z <= 1 / inject_Z z)%Q.
Proof.
  intros Hz Hb. destruct z as [|p|p]; try lia.
  unfold Qle, Qdiv, Qmult, Qinv, inject_Z. simpl. nia.
Qed.

Lemma inject_Z_nonzero (z : Z) : z ≠ 0 → ¬ (inject_Z z == 0)%Q.
Proof. intros Hz. unfold Qeq, inject_Z. simpl. lia. Qed.

(** An increment [b / 2^(k+1)] with [k < n] is a multiple of [1 / 2^n]. *)
Lemma increment_dyadic (b k n : Z) :
  0 ≤ k < n →
  (inject_Z b / inject_Z (2 ^ (k + 1))
   == inject_Z (b * 2 ^ (n - k - 1)) / inject_Z (2 ^ n))%Q.
Proof.
  intros Hk.
  replace (2 ^ n) with (2 ^ (k + 1) * 2 ^ (n - k - 1)).
  2:{ rewrite <- Z.pow_add_r by lia. f_equal. lia. }
  rewrite !inject_Z_mult.
  pose proof (pow2_positive (k + 1) ltac:(lia)).
  pose proof (pow2_positive (n - k - 1) ltac:(lia)).
  field. split; apply inject_Z_nonzero; lia.
Qed.

Lemma weight_app (ks1 ks2 : list Z) :
  (IPEA.weight (ks1 ++ ks2) == IPEA.weight ks1 + IPEA.weight ks2)%Q.
Proof.
  induction ks1 as [|k ks1 IH]; simpl.
  - ring.
  - rewrite IH. ring.
Qed.

Lemma weight_nonneg (ks : list Z) : (0 <= IPEA.weight ks)%Q.
Proof.
  induction ks as [|k ks IH]; simpl; [apply Qle_refl|].
  assert (0 <= 1 / inject_Z (2 ^ (k + 1)))%Q.
  { pose proof (Z.pow_nonneg 2 (k + 1) ltac:(lia)).
    destruct (2 ^ (k + 1)) as [|p|p]; try lia;
      unfold Qle, Qdiv, Qmult, Qinv, inject_Z; simpl; lia. }
  lra.
Qed.

Lemma reverse_seqZ_succ (n : nat) :
  reverse (seqZ 0 (Z.of_nat (S n))) = Z.of_nat n :: reverse (seqZ 0 (Z.of_nat n)).
Proof. rewrite seqZ_S, reverse_app. simpl. by rewrite Z.add_0_l. Qed.

(** All iterations together can add at most [1 - 1/2^n]. *)
Lemma weight_countdown (n : nat) :
  (IPEA.weight (reverse (seqZ 0 (Z.of_nat n)))
   == 1 - 1 / inject_Z (2 ^ Z.of_nat n))%Q.
Proof.
  induction n as [|n IH].
  - rewrite seqZ_nil by lia. vm_compute. reflexivity.
  - rewrite reverse_seqZ_succ. simpl IPEA.weight. rewrite IH.
    replace (Z.of_nat (S n)) with (Z.of_nat n + 1) by lia.
    rewrite Z.pow_add_r by lia. rewrite inject_Z_mult.
    pose proof (pow2_positive (Z.of_nat n) ltac:(lia)).
    change (2 ^ 1) with 2.
    field. apply inject_Z_nonzero. lia.
Qed.

Lemma sum_countdown (n : nat) :
  foldr Z.add 0 ((λ k, 2 ^ k) <$> reverse (seqZ 0 (Z.of_nat n)))
  = 2 ^ Z.of_nat n - 1.
Proof.
  induction n as [|n IH].
  - by rewrite seqZ_nil by lia.
  - rewrite reverse_seqZ_succ, fmap_cons.
    change (foldr Z.add 0 (?x :: ?l)) with (x + foldr Z.add 0 l).
    rewrite IH.
    replace (Z.of_nat (S n)) with (Z.of_nat n + 1) by lia.
    rewrite Z.pow_add_r by lia. lia.
Qed.

(** ** The loop *)

Section IPEA_properties.

Import IPEA.

Variable np_pi : Q.
Variable simulator : Type.
Variable get_counts : circuit → Z → simulator → counts * simulator.

Local Abbreviation world := (world simulator).
Local Abbreviation k_circ := (k_circ np_pi).
Local Abbreviation iteration := (iteration np_pi simulator get_counts).
Local Abbreviation for_each := (for_each np_pi simulator get_counts).
Local Abbreviation estimate_phase := (estimate_phase np_pi simulator get_counts).
Local Abbreviation eigenvalue := (eigenvalue np_pi).
Local Abbreviation notebook := (notebook np_pi simulator get_counts).

(** One pass of the body: run the circuit, then add the recovered value. *)
Lemma iteration_run (k : Z) (phase : Q) (w : world) :
  iteration k phase w
  = match measured_value (get_counts (k_circ k phase) 1000 (sim w)).1 with
    | Ok b =>
        (Ok (phase + inject_Z b / inject_Z (2 ^ (k + 1)))%Q,
         World (get_counts (k_circ k phase) 1000 (sim w)).2
           (trace w ++ [(k_circ k phase, 1000)]))
    | Raise e =>
        (Raise e,
         World (get_counts (k_circ k phase) 1000 (sim w)).2
           (trace w ++ [(k_circ k phase, 1000)]))
    end.
Proof.
  unfold IPEA.iteration, measured_value, mbind, mret, M_bind, M_ret, bind, ret,
    execute, lift.
  destruct (get_counts (k_circ k phase) 1000 (sim w)) as [cnt s]. simpl.
  destruct (max (keys cnt) (get cnt)) as [item|e]; [|done].
  by destruct (int item).
Qed.

Lemma for_each_app (ks1 ks2 : list Z) (phase : Q) (w : world) :
  for_each (ks1 ++ ks2) phase w
  = match for_each ks1 phase w with
    | (Ok phase1, w1) => for_each ks2 phase1 w1
    | (Raise e, w1) => (Raise e, w1)
    end.
Proof.
  revert phase w. induction ks1 as [|k ks1 IH]; intros phase w; [done|].
  simpl. unfold mbind, M_bind, bind.
  destruct (iteration k phase w) as [[phase1|e] w1]; [apply IH|done].
Qed.

Lemma k_circ_shape (k : Z) (phase : Q) :
  k_circ k phase
  = [X_q; H_a] ++ replicate (Z.to_nat (2 ^ k)) Control_H
      ++ [U1_a (- (2 * np_pi * phase * inject_Z (2 ^ k)))%Q; H_a; Measure_a_c].
Proof. unfold IPEA.k_circ. simpl. by rewrite <- !app_assoc. Qed.

Lemma k_circ_applications (k : Z) (phase : Q) :
  0 ≤ k → applications (k_circ k phase) = 2 ^ k.
Proof.
  intros Hk. rewrite k_circ_shape, !applications_app, applications_replicate.
  pose proof (pow2_positive k Hk). simpl. lia.
Qed.

(** With an honest backend every pass succeeds and adds a bit's worth. *)
Lemma iteration_honest (k : Z) (phase : Q) (w : world) :
  honest get_counts →
  ∃ b, (b = 0 ∨ b = 1)
       ∧ measured_value (get_counts (k_circ k phase) 1000 (sim w)).1 = Ok b
       ∧ iteration k phase w
         = (Ok (phase + inject_Z b / inject_Z (2 ^ (k + 1)))%Q,
            World (get_counts (k_circ k phase) 1000 (sim w)).2
              (trace w ++ [(k_circ k phase, 1000)])).
Proof.
  intros Hh.
  destruct (measured_value_bit _ (Hh (k_circ k phase) (sim w))) as (b & Hb & Hv).
  exists b. split; [done|]. split; [done|].
  by rewrite iteration_run, Hv.
Qed.

(** The loop over any list of bit positions: it returns; the phase grows by
    at most the weight of the positions; the backend ran one circuit per
    position, with [2^k] copies of [control_H] for position [k]; and a phase
    that was a multiple of [1/2^n] stays one when all positions are below
    [n]. *)
Lemma for_each_spec (ks : list Z) :
  honest get_counts →
  Forall (λ k, 0 ≤ k) ks →
  ∀ (phase : Q) (w : world),
  ∃ (phase' : Q) (s' : simulator) (new : list (circuit * Z)),
    for_each ks phase w = (Ok phase', World s' (trace w ++ new))
    ∧ (phase <= phase')%Q
    ∧ (phase' <= phase + weight ks)%Q
    ∧ (λ e, applications e.1) <$> new = (λ k, 2 ^ k) <$> ks
    ∧ ∀ n M, Forall (λ k, k < n) ks →
        (phase == inject_Z M / inject_Z (2 ^ n))%Q →
        ∃ M', M ≤ M' ∧ (phase' == inject_Z M' / inject_Z (2 ^ n))%Q.
Proof.
  intros Hh Hks. induction Hks as [|k ks Hk Hks IH]; intros phase w.
  - exists phase, (sim w), []. simpl.
    split; [destruct w; by rewrite app_nil_r|].
    split; [apply Qle_refl|]. split; [lra|]. split; [done|].
    intros n M _ HM. exists M. split; [lia|done].
  - destruct (iteration_honest k phase w Hh) as (b & Hb & _ & Hit).
    set (phase1 := (phase + inject_Z b / inject_Z (2 ^ (k + 1)))%Q) in *.
    set (w1 := World _ _) in Hit.
    destruct (IH phase1 w1) as (phase' & s' & new & Hrun & Hlo & Hhi & Happ & Hdy).
    exists phase', s', ((k_circ k phase, 1000) :: new).
    pose proof (increment_bounds b (2 ^ (k + 1))
                  (pow2_positive (k + 1) ltac:(lia)) ltac:(lia)) as [Hb0 Hb1].
    split.
    { simpl. unfold mbind, M_bind, bind. rewrite Hit, Hrun.
      subst w1. simpl. by rewrite <- app_assoc. }
    split; [subst phase1; lra|].
    split; [subst phase1; simpl weight; lra|].
    split.
    { rewrite !fmap_cons, Happ. f_equal. by apply k_circ_applications. }
    intros n M Hlt HM.
    apply Forall_cons in Hlt as [Hkn Hlt].
    destruct (Hdy n (M + b * 2 ^ (n - k - 1)) Hlt) as (M' & HM' & Heq).
    { subst phase1. rewrite HM, (increment_dyadic b k n) by lia.
      rewrite inject_Z_plus.
      pose proof (pow2_positive n ltac:(lia)).
      field. apply inject_Z_nonzero. lia. }
    exists M'. split; [|done].
    pose proof (pow2_positive (n - k - 1) ltac:(lia)). nia.
Qed.

Lemma countdown_range (num_bits : Z) :
  Forall (λ k, 0 ≤ k ∧ k < num_bits) (reverse (seqZ 0 num_bits)).
Proof. apply Forall_reverse, Forall_seqZ. lia. Qed.

Lemma countdown_lookup (num_bits i : Z) :
  0 ≤ i < num_bits →
  reverse (seqZ 0 num_bits) !! Z.to_nat i = Some (num_bits - 1 - i).
Proof.
  intros Hi. rewrite reverse_lookup by (rewrite length_seqZ; lia).
  rewrite length_seqZ. rewrite lookup_seqZ_lt by lia. f_equal. lia.
Qed.

Lemma weight_countdown_below_one (num_bits : Z) :
  (weight (reverse (seqZ 0 num_bits)) < 1)%Q.
Proof.
  destruct (decide (num_bits ≤ 0)) as [Hn|Hn].
  - rewrite seqZ_nil by done. reflexivity.
  - replace num_bits with (Z.of_nat (Z.to_nat num_bits)) by lia.
    rewrite weight_countdown.
    pose proof (pow2_positive (Z.of_nat (Z.to_nat num_bits)) ltac:(lia)) as Hp.
    destruct (2 ^ Z.of_nat (Z.to_nat num_bits)) as [|p|p]; try lia.
    unfold Qlt, Qminus, Qplus, Qopp, Qdiv, Qmult, Qinv, inject_Z. simpl. lia.
Qed.

Lemma total_applications_fmap (tr : list (circuit * Z)) :
  total_applications tr = foldr Z.add 0 ((λ e, applications e.1) <$> tr).
Proof. induction tr as [|e tr IH]; simpl; [done|]. by rewrite IH. Qed.

(** The loop of the notebook does what the state machine of the
    specification does: same final phase, same final backend state, same
    runs in the same order. *)
Lemma for_each_follows_spec (j : nat) :
  honest get_counts →
  ∀ (phase : Q) (w : world),
    for_each (reverse (seqZ 0 (Z.of_nat j))) phase w
    = (let '(final, s', runs) :=
         spec_iterations np_pi get_counts j phase (sim w) in
       (Ok final, World s' (trace w ++ runs))).
Proof.
  intros Hh. induction j as [|j IH]; intros phase w.
  - simpl. destruct w. by rewrite app_nil_r.
  - rewrite reverse_seqZ_succ.
    change (for_each (Z.of_nat j :: reverse (seqZ 0 (Z.of_nat j))) phase w)
      with (match iteration (Z.of_nat j) phase w with
            | (Ok phase1, w1) => for_each (reverse (seqZ 0 (Z.of_nat j))) phase1 w1
            | (Raise e, w1) => (Raise e, w1)
            end).
    rewrite iteration_run.
    rewrite (measured_value_vote _ (Hh (k_circ (Z.of_nat j) phase) (sim w))).
    rewrite IH. simpl spec_iterations.
    rewrite k_circ_shape. fold (spec_circuit np_pi (Z.of_nat j) phase).
    simpl sim. simpl trace.
    destruct (spec_iterations _ _ _ _ _) as [[final s'] runs].
    by rewrite <- app_assoc.
Qed.

(** C3: iteration [k] builds a circuit that, after the two initial gates,
    holds exactly [2^k] consecutive copies of [control_H], followed by the
    rotation [u1] with angle [-(2 * pi * phase * 2^k)] on the phase accumulated
    so far; after the run the accumulator becomes [phase + b / 2^(k+1)], where
    [b] is the value of the most frequent outcome, which is the outcome
    measured on more than half of the shots when there is one, and a bit for
    a one-bit register; the loop visits [k = num_bits - 1] first and counts
    down to 0. On the counts of a one-bit register [b] is the majority vote
    over the raw entries, 1 when ["1"] got more than half of the shots and 0
    when ["0"] did; and the whole loop does what the state machine of the
    specification does, iteration by iteration: same circuits in the same
    order, same final phase. *)
Theorem iteration_applies_unitary_then_corrects (k : Z) (phase : Q) (w : world) :
  0 ≤ k →
  k_circ k phase
  = [X_q; H_a] ++ replicate (Z.to_nat (2 ^ k)) Control_H
      ++ [U1_a (- (2 * np_pi * phase * inject_Z (2 ^ k)))%Q; H_a; Measure_a_c]
  ∧ Z.of_nat (length (replicate (Z.to_nat (2 ^ k)) Control_H)) = 2 ^ k
  ∧ applications (k_circ k phase) = 2 ^ k
  ∧ (∀ b, measured_value (get_counts (k_circ k phase) 1000 (sim w)).1 = Ok b →
       iteration k phase w
       = (Ok (phase + inject_Z b / inject_Z (2 ^ (k + 1)))%Q,
          World (get_counts (k_circ k phase) 1000 (sim w)).2
            (trace w ++ [(k_circ k phase, 1000)])))
  ∧ (∀ (cnt : counts) outcome b,
       Forall (λ kv, 0 ≤ kv.2) cnt → majority cnt outcome →
       int outcome = Ok b → measured_value cnt = Ok b)
  ∧ (∀ cnt : counts, one_bit_counts 1000 cnt →
       ∃ b, (b = 0 ∨ b = 1) ∧ measured_value cnt = Ok b)
  ∧ (∀ num_bits i, 0 ≤ i < num_bits →
       reverse (seqZ 0 num_bits) !! Z.to_nat i = Some (num_bits - 1 - i))
  ∧ (∀ n (w0 : world), 0 ≤ n →
       estimate_phase (n + 1) w0
       = match iteration n 0%Q w0 with
         | (Ok phase1, w1) => for_each (reverse (seqZ 0 n)) phase1 w1
         | (Raise e, w1) => (Raise e, w1)
         end)
  ∧ k_circ k phase = spec_circuit np_pi k phase
  ∧ (∀ cnt : counts, one_bit_counts 1000 cnt →
       measured_value cnt = Ok (majority_vote cnt))
  ∧ (∀ (cnt : counts) n, one_bit_counts 1000 cnt → 500 < n →
       (("1", n) ∈ cnt → measured_value cnt = Ok 1)
       ∧ (("0", n) ∈ cnt → measured_value cnt = Ok 0))
  ∧ (honest get_counts →
     ∀ num_bits (w0 : world), 0 ≤ num_bits →
       estimate_phase num_bits w0
       = (let '(final, s', runs) :=
            spec_iterations np_pi get_counts (Z.to_nat num_bits) 0%Q (sim w0) in
          (Ok final, World s' (trace w0 ++ runs)))).
Proof.
  intros Hk. pose proof (pow2_positive k Hk).
  split; [apply k_circ_shape|].
  split; [rewrite length_replicate; lia|].
  split; [by apply k_circ_applications|].
  split; [intros b Hb; by rewrite iteration_run, Hb|].
  split; [intros cnt outcome b; apply majority_bit_recovered|].
  split; [apply measured_value_bit|].
  split; [apply countdown_lookup|].
  split.
  { intros n w0 Hn. unfold IPEA.estimate_phase.
    replace (n + 1) with (Z.of_nat (S (Z.to_nat n))) by lia.
    rewrite reverse_seqZ_succ. replace (Z.of_nat (Z.to_nat n)) with n by lia.
    simpl. unfold mbind, M_bind, bind.
    by destruct (iteration n 0%Q w0) as [[phase1|e] w1]. }
  split; [apply k_circ_shape|].
  split; [apply measured_value_vote|].
  split; [apply measured_value_more_than_half|].
  intros Hh num_bits w0 Hn. unfold IPEA.estimate_phase.
  rewrite <- (Z2Nat.id num_bits) at 1 by done.
  by apply for_each_follows_spec.
Qed.

(** C7: the loop starts from phase 0; at any point of the run, that is
    after any initial part [ks1] of the iterations, the accumulated phase lies
    in [0, 1); the next iteration adds one increment to it; and the phase
    returned at the end lies in [0, 1). The loop itself makes that update,
    once per iteration: after [ks1] the backend has run once for each
    position of [ks1], and the loop taken one position further holds the
    phase plus the increment of that position, has made exactly one more
    run, and goes on from there to the phase it returns. *)
Theorem phase_stays_in_unit_interval (num_bits : Z) (w : world)
    (ks1 ks2 : list Z) :
  honest get_counts →
  reverse (seqZ 0 num_bits) = ks1 ++ ks2 →
  ∃ phase1 w1 phase2 w2,
    for_each ks1 0%Q w = (Ok phase1, w1)
    ∧ for_each ks2 phase1 w1 = (Ok phase2, w2)
    ∧ estimate_phase num_bits w = (Ok phase2, w2)
    ∧ (0 <= phase1)%Q ∧ (phase1 < 1)%Q
    ∧ (0 <= phase2)%Q ∧ (phase2 < 1)%Q
    ∧ (ks1 = [] → phase1 = 0%Q)
    ∧ (∀ k rest, ks2 = k :: rest →
         ∃ b, (b = 0 ∨ b = 1)
              ∧ (iteration k phase1 w1).1
                = Ok (phase1 + inject_Z b / inject_Z (2 ^ (k + 1)))%Q)
    ∧ (ks1 = [] → w1 = w)
    ∧ (∃ runs1, trace w1 = trace w ++ runs1 ∧ length runs1 = length ks1)
    ∧ (∀ k rest, ks2 = k :: rest →
         ∃ b, (b = 0 ∨ b = 1)
              ∧ measured_value (get_counts (k_circ k phase1) 1000 (sim w1)).1
                = Ok b
              ∧ for_each (ks1 ++ [k]) 0%Q w
                = (Ok (phase1 + inject_Z b / inject_Z (2 ^ (k + 1)))%Q,
                   World (get_counts (k_circ k phase1) 1000 (sim w1)).2
                     (trace w1 ++ [(k_circ k phase1, 1000)]))
              ∧ estimate_phase num_bits w
                = for_each rest
                    (phase1 + inject_Z b / inject_Z (2 ^ (k + 1)))%Q
                    (World (get_counts (k_circ k phase1) 1000 (sim w1)).2
                       (trace w1 ++ [(k_circ k phase1, 1000)]))).
Proof.
  intros Hh Hsplit.
  pose proof (countdown_range num_bits) as Hrange.
  rewrite Hsplit in Hrange. apply Forall_app in Hrange as [Hr1 Hr2].
  assert (H1 : Forall (λ k, 0 ≤ k) ks1) by (eapply Forall_impl; [done|]; simpl; lia).
  assert (H2 : Forall (λ k, 0 ≤ k) ks2) by (eapply Forall_impl; [done|]; simpl; lia).
  destruct (for_each_spec ks1 Hh H1 0%Q w)
    as (phase1 & s1 & new1 & Hrun1 & Hlo1 & Hhi1 & Happ1 & _).
  set (w1 := World s1 (trace w ++ new1)) in *.
  destruct (for_each_spec ks2 Hh H2 phase1 w1)
    as (phase2 & s2 & new2 & Hrun2 & Hlo2 & Hhi2 & _ & _).
  pose proof (weight_countdown_below_one num_bits) as Hw.
  rewrite Hsplit, weight_app in Hw.
  pose proof (weight_nonneg ks2).
  exists phase1, w1, phase2, (World s2 (trace w1 ++ new2)).
  split; [done|]. split; [done|].
  split.
  { unfold IPEA.estimate_phase. by rewrite Hsplit, for_each_app, Hrun1. }
  split; [done|]. split; [lra|]. split; [lra|]. split; [lra|].
  split.
  { intros ->. simpl in Hrun1. unfold mret, M_ret, ret in Hrun1. congruence. }
  split.
  { intros k rest ->.
    destruct (iteration_honest k phase1 w1 Hh) as (b & Hb & _ & Hit).
    exists b. by rewrite Hit. }
  split.
  { intros ->. simpl in Hrun1. unfold mret, M_ret, ret in Hrun1. congruence. }
  split.
  { exists new1. split; [done|].
    apply (f_equal length) in Happ1. by rewrite !length_fmap in Happ1. }
  intros k rest ->.
  destruct (iteration_honest k phase1 w1 Hh) as (b & Hb & Hv & Hit).
  exists b. split; [done|]. split; [done|].
  split.
  - rewrite for_each_app, Hrun1. simpl. unfold mbind, M_bind, bind.
    by rewrite Hit.
  - unfold IPEA.estimate_phase. rewrite Hsplit, for_each_app, Hrun1.
    simpl. unfold mbind, M_bind, bind. by rewrite Hit.
Qed.

(** C8: for [num_bits >= 1] the loop returns after one backend run per bit
    position, [num_bits] runs in all, each position once from
    [num_bits - 1] down to 0; the run for position [k] holds [2^k] copies of
    [control_H], so the whole run holds [2^num_bits - 1] of them, and the
    first run holds the most, [2^(num_bits - 1)]. *)
Theorem loop_runs_once_per_bit (num_bits : Z) (w : world) :
  honest get_counts →
  1 ≤ num_bits →
  ∃ phase s' new,
    estimate_phase num_bits w = (Ok phase, World s' (trace w ++ new))
    ∧ Z.of_nat (length new) = num_bits
    ∧ (λ e, applications e.1) <$> new
      = (λ k, 2 ^ k) <$> reverse (seqZ 0 num_bits)
    ∧ total_applications new = 2 ^ num_bits - 1
    ∧ (λ e, applications e.1) <$> head new = Some (2 ^ (num_bits - 1))
    ∧ Forall (λ e, applications e.1 ≤ 2 ^ (num_bits - 1)) new.
Proof.
  intros Hh Hn.
  pose proof (countdown_range num_bits) as Hrange.
  assert (H0 : Forall (λ k, 0 ≤ k) (reverse (seqZ 0 num_bits)))
    by (eapply Forall_impl; [done|]; simpl; lia).
  destruct (for_each_spec _ Hh H0 0%Q w)
    as (phase & s' & new & Hrun & _ & _ & Happ & _).
  exists phase, s', new. split; [done|].
  split.
  { apply (f_equal length) in Happ.
    rewrite !length_fmap, length_reverse, length_seqZ in Happ. lia. }
  split; [done|].
  split.
  { rewrite total_applications_fmap, Happ.
    replace num_bits with (Z.of_nat (Z.to_nat num_bits)) by lia.
    apply sum_countdown. }
  split.
  { assert (Hhead : (λ e, applications e.1) <$> head new
                    = head ((λ e : circuit * Z, applications e.1) <$> new))
      by by destruct new.
    rewrite Hhead, Happ.
    replace num_bits with (Z.of_nat (S (Z.to_nat (num_bits - 1)))) at 1 by lia.
    rewrite reverse_seqZ_succ. simpl. do 2 f_equal. lia. }
  apply (Forall_fmap (λ e, applications e.1) (λ x, x ≤ 2 ^ (num_bits - 1))).
  rewrite Happ. apply Forall_fmap.
  eapply Forall_impl; [exact Hrange|]. simpl. intros k Hk.
  apply Z.pow_le_mono_r; lia.
Qed.

(** C9: once the loop of the notebook has returned the phase, the notebook's
    result is [2 * pi * (1 - phase) / t]. *)
Theorem eigenvalue_from_final_phase (w : world) :
  honest get_counts →
  ∃ phase w',
    estimate_phase num_bits_estimate w = (Ok phase, w')
    ∧ notebook w = (Ok (2 * np_pi * (1 - phase) / inject_Z t)%Q, w')
    ∧ ∀ t', t' ≠ 0 →
        eigenvalue phase t' = Ok (2 * np_pi * (1 - phase) / inject_Z t')%Q.
Proof.
  intros Hh.
  assert (H0 : Forall (λ k, 0 ≤ k) (reverse (seqZ 0 num_bits_estimate))).
  { eapply Forall_impl; [apply countdown_range|]. simpl. lia. }
  destruct (for_each_spec _ Hh H0 0%Q w) as (phase & s' & new & Hrun & _).
  change (estimate_phase num_bits_estimate w
          = (Ok phase, World s' (trace w ++ new))) in Hrun.
  exists phase, (World s' (trace w ++ new)). split; [done|].
  split.
  { unfold IPEA.notebook, mbind, M_bind, bind. by rewrite Hrun. }
  intros t' Ht. unfold IPEA.eigenvalue. by rewrite bool_decide_eq_false_2.
Qed.

(** C10: every iteration recovers a bit, 0 or 1, so an iteration never
    lowers the phase and the phase after any part of the run is at most the
    phase after a longer part; the phase returned is [m / 2^num_bits] for an
    integer [0 <= m < 2^num_bits]. *)
Theorem recovered_bits_give_dyadic_phase (num_bits : Z) (w : world) :
  honest get_counts →
  0 ≤ num_bits →
  (∀ k phase (w0 : world),
     ∃ b, (b = 0 ∨ b = 1)
          ∧ measured_value (get_counts (k_circ k phase) 1000 (sim w0)).1 = Ok b
          ∧ (iteration k phase w0).1
            = Ok (phase + inject_Z b / inject_Z (2 ^ (k + 1)))%Q)
  ∧ (∀ ks1 ks2 ks3, reverse (seqZ 0 num_bits) = ks1 ++ ks2 ++ ks3 →
       ∃ phase1 w1 phase2 w2,
         for_each ks1 0%Q w = (Ok phase1, w1)
         ∧ for_each ks2 phase1 w1 = (Ok phase2, w2)
         ∧ (phase1 <= phase2)%Q)
  ∧ ∃ phase w' m,
      estimate_phase num_bits w = (Ok phase, w')
      ∧ (phase == inject_Z m / inject_Z (2 ^ num_bits))%Q
      ∧ 0 ≤ m < 2 ^ num_bits.
Proof.
  intros Hh Hn.
  pose proof (countdown_range num_bits) as Hrange.
  split.
  { intros k phase w0.
    destruct (iteration_honest k phase w0 Hh) as (b & Hb & Hv & Hit).
    exists b. by rewrite Hit. }
  split.
  { intros ks1 ks2 ks3 Hsplit. rewrite Hsplit in Hrange.
    apply Forall_app in Hrange as [Hr1 Hr23].
    apply Forall_app in Hr23 as [Hr2 _].
    assert (H1 : Forall (λ k, 0 ≤ k) ks1)
      by (eapply Forall_impl; [done|]; simpl; lia).
    assert (H2 : Forall (λ k, 0 ≤ k) ks2)
      by (eapply Forall_impl; [done|]; simpl; lia).
    destruct (for_each_spec ks1 Hh H1 0%Q w)
      as (phase1 & s1 & new1 & Hrun1 & _).
    destruct (for_each_spec ks2 Hh H2 phase1 (World s1 (trace w ++ new1)))
      as (phase2 & s2 & new2 & Hrun2 & Hlo2 & _).
    eauto 10. }
  assert (H0 : Forall (λ k, 0 ≤ k) (reverse (seqZ 0 num_bits)))
    by (eapply Forall_impl; [done|]; simpl; lia).
  destruct (for_each_spec _ Hh H0 0%Q w)
    as (phase & s' & new & Hrun & Hlo & Hhi & _ & Hdy).
  destruct (Hdy num_bits 0) as (m & Hm & Heq).
  { eapply Forall_impl; [exact Hrange|]. simpl. lia. }
  { unfold Qeq, Qdiv, Qmult. simpl. lia. }
  exists phase, (World s' (trace w ++ new)), m.
  split; [done|]. split; [done|]. split; [done|].
  pose proof (weight_countdown_below_one num_bits) as Hw.
  assert (Hlt : (phase < 1)%Q) by lra.
  rewrite Heq in Hlt.
  pose proof (pow2_positive num_bits Hn) as Hp.
  destruct (2 ^ num_bits) as [|p|p]; try lia.
  unfold Qlt, Qdiv, Qmult, Qinv, inject_Z in Hlt. simpl in Hlt. lia.
Qed.

End IPEA_properties.

(** ** The phase estimation on a noiseless backend *)

Lemma ideal_backend_honest (np_pi phi : Q) :
  IPEA.honest (IPEA.ideal_backend np_pi phi).
Proof.
  intros c s. unfold IPEA.ideal_backend.
  destruct (_ && _); simpl; unfold IPEA.one_bit_counts; simpl;
    (split; [apply NoDup_singleton|]); (split; [|done]);
    apply Forall_singleton; simpl; (split; [auto|lia]).
Qed.

(** Three bits of the eigenphase 0.101 in binary: the bits come out as 1, 0,
    1 from the last to the first, and the phase is 5/8. *)
Example ideal_run_recovers_five_eighths :
  match (IPEA.estimate_phase IPEA.float_pi nat
           (IPEA.ideal_backend IPEA.float_pi (5 # 8)) 3 IPEA.demo_world).1 with
  | Ok phase => (phase == 5 # 8)%Q
  | Raise _ => False
  end.
Proof. vm_compute. reflexivity. Qed.

Example ideal_run_applications :
  (λ e, IPEA.applications e.1)
    <$> IPEA.trace (IPEA.estimate_phase IPEA.float_pi nat
                      (IPEA.ideal_backend IPEA.float_pi (5 # 8)) 3
                      IPEA.demo_world).2
  = [4; 2; 1].
Proof. vm_compute. reflexivity. Qed.

(** A tie between the two outcomes goes to the first key of the
    dictionary. *)
Example tie_goes_to_first_key :
  IPEA.measured_value [("1", 500); ("0", 500)] = Ok 1
  ∧ IPEA.measured_value [("0", 500); ("1", 500)] = Ok 0.
Proof. split; reflexivity. Qed.

Lemma iteration_applies_unitary_then_corrects_witness :
  IPEA.applications (IPEA.k_circ IPEA.float_pi 1 (1 # 8)) = 2 ^ 1
  ∧ IPEA.measured_value [("0", 1); ("1", 999)] = Ok 1
  ∧ IPEA.estimate_phase IPEA.float_pi nat
      (IPEA.ideal_backend IPEA.float_pi (5 # 8)) 3 IPEA.demo_world
    = (let '(final, s', runs) :=
         IPEA.spec_iterations IPEA.float_pi
           (IPEA.ideal_backend IPEA.float_pi (5 # 8)) 3 0%Q 0%nat in
       (Ok final, IPEA.World s' ([] ++ runs))).
Proof.
  pose proof (iteration_applies_unitary_then_corrects IPEA.float_pi nat
                (IPEA.ideal_backend IPEA.float_pi (5 # 8)) 1 (1 # 8)
                IPEA.demo_world ltac:(lia))
    as (_ & _ & Happ & _ & _ & _ & _ & _ & _ & _ & Hhalf & Hspec).
  split; [exact Happ|]. split.
  - apply (Hhalf [("0", 1); ("1", 999)] 999); [|lia|].
    + unfold IPEA.one_bit_counts. split; [|split; [|reflexivity]].
      * apply (bool_decide_unpack _). vm_compute. exact I.
      * repeat constructor; simpl; auto; lia.
    + rewrite !elem_of_cons. auto.
  - exact (Hspec (ideal_backend_honest _ _) 3 IPEA.demo_world ltac:(lia)).
Defined.

Lemma phase_stays_in_unit_interval_witness :
  ∃ phase,
    (IPEA.estimate_phase IPEA.float_pi nat
       (IPEA.ideal_backend IPEA.float_pi (5 # 8)) 3 IPEA.demo_world).1
    = Ok phase
    ∧ (0 <= phase)%Q ∧ (phase < 1)%Q.
Proof.
  destruct (phase_stays_in_unit_interval IPEA.float_pi nat
              (IPEA.ideal_backend IPEA.float_pi (5 # 8)) 3 IPEA.demo_world
              [2] [1; 0] (ideal_backend_honest _ _) eq_refl)
    as (phase1 & w1 & phase2 & w2 & _ & _ & Hrun & _ & _ & Hlo & Hhi & _).
  exists phase2. rewrite Hrun. auto.
Defined.

Lemma loop_runs_once_per_bit_witness :
  ∃ new,
    IPEA.trace (IPEA.estimate_phase IPEA.float_pi nat
                  (IPEA.ideal_backend IPEA.float_pi (5 # 8)) 3
                  IPEA.demo_world).2
    = [] ++ new
    ∧ Z.of_nat (length new) = 3
    ∧ IPEA.total_applications new = 2 ^ 3 - 1.
Proof.
  destruct (loop_runs_once_per_bit IPEA.float_pi nat
              (IPEA.ideal_backend IPEA.float_pi (5 # 8)) 3 IPEA.demo_world
              (ideal_backend_honest _ _) ltac:(lia))
    as (phase & s' & new & Hrun & Hlen & _ & Htot & _).
  exists new. rewrite Hrun. auto.
Defined.

Lemma eigenvalue_from_final_phase_witness :
  ∃ phase,
    (IPEA.notebook IPEA.float_pi nat
       (IPEA.ideal_backend IPEA.float_pi (5 # 8)) IPEA.demo_world).1
    = Ok (2 * IPEA.float_pi * (1 - phase) / inject_Z 1)%Q.
Proof.
  destruct (eigenvalue_from_final_phase IPEA.float_pi nat
              (IPEA.ideal_backend IPEA.float_pi (5 # 8)) IPEA.demo_world
              (ideal_backend_honest _ _))
    as (phase & w' & _ & Hnb & _).
  exists phase. by rewrite Hnb.
Defined.

Lemma recovered_bits_give_dyadic_phase_witness :
  ∃ phase m,
    (IPEA.estimate_phase IPEA.float_pi nat
       (IPEA.ideal_backend IPEA.float_pi (5 # 8)) 3 IPEA.demo_world).1
    = Ok phase
    ∧ (phase == inject_Z m / inject_Z (2 ^ 3))%Q ∧ 0 ≤ m < 2 ^ 3.
Proof.
  destruct (recovered_bits_give_dyadic_phase IPEA.float_pi nat
              (IPEA.ideal_backend IPEA.float_pi (5 # 8)) 3 IPEA.demo_world
              (ideal_backend_honest _ _) ltac:(lia))
    as (_ & _ & phase & w' & m & Hrun & Heq & Hm).
  exists phase, m. rewrite Hrun. auto.
Defined.

(** * Further properties of the eigensolver notebook *)

Section VQE_further.

Import VQE Operators.

Variable np_pi : Q.
Variable simulator : Type.
Variable get_counts : circuit → Z → simulator → gmap string Z * simulator.

Local Abbreviation world := (world simulator).
Local Abbreviation vqe_circuit := (vqe_circuit np_pi simulator).
Local Abbreviation quantum_module := (quantum_module np_pi simulator get_counts).
Local Abbreviation vqe := (vqe np_pi simulator get_counts).

(** The three circuits of one evaluation. *)
Local Abbreviation circuit_Z parameters :=
  [Rx (fst parameters); Ry (snd parameters); Measure].
Local Abbreviation circuit_X parameters :=
  [Rx (fst parameters); Ry (snd parameters); U2 0 np_pi; Measure].
Local Abbreviation circuit_Y parameters :=
  [Rx (fst parameters); Ry (snd parameters); U2 0 (np_pi / 2); Measure].

Lemma vqe_circuit_result (parameters : Q * Q) (w : world) :
  (vqe_circuit parameters "Z" w).1 = Ok (circuit_Z parameters)
  ∧ (vqe_circuit parameters "X" w).1 = Ok (circuit_X parameters)
  ∧ (vqe_circuit parameters "Y" w).1 = Ok (circuit_Y parameters).
Proof. repeat split. Qed.

Lemma quantum_module_on (parameters : Q * Q) (measure : string) (c : circuit)
    (w : world) :
  (vqe_circuit parameters measure w).1 = Ok c →
  quantum_module parameters measure w
  = (Ok (expectation (get_counts c 1000 (sim w)).1 1000),
     World (get_counts c 1000 (sim w)).2
       (trace w ++ [EvQuantumModule measure; EvVqeCircuit measure;
                    EvExecute c 1000])).
Proof.
  intros Hc.
  pose proof (vqe_circuit_ok_inv np_pi simulator _ _ _ _ Hc) as Hm.
  destruct (quantum_module_measured np_pi simulator get_counts parameters
              measure w Hm) as (c' & Hc' & Hq).
  assert (c' = c) as -> by (specialize (Hc' w); congruence).
  exact Hq.
Qed.

(** One evaluation of [vqe], step by step: the three runs thread the
    backend's state, and the mapping only enters through the four
    coefficients. *)
Lemma vqe_run (pauli_dict : gmap string Q) (parameters : Q * Q) (w : world) :
  let r1 := get_counts (circuit_Z parameters) 1000 (sim w) in
  let r2 := get_counts (circuit_X parameters) 1000 r1.2 in
  let r3 := get_counts (circuit_Y parameters) 1000 r2.2 in
  vqe pauli_dict parameters w
  = (Ok (get_or_else_zero pauli_dict "I" * 1
         + get_or_else_zero pauli_dict "Z" * expectation r1.1 1000
         + get_or_else_zero pauli_dict "X" * expectation r2.1 1000
         + get_or_else_zero pauli_dict "Y" * expectation r3.1 1000)%Q,
     World r3.2
       (trace w ++ [EvQuantumModule "I";
                    EvQuantumModule "Z"; EvVqeCircuit "Z";
                    EvExecute (circuit_Z parameters) 1000;
                    EvQuantumModule "X"; EvVqeCircuit "X";
                    EvExecute (circuit_X parameters) 1000;
                    EvQuantumModule "Y"; EvVqeCircuit "Y";
                    EvExecute (circuit_Y parameters) 1000])).
Proof.
  intros r1 r2 r3.
  unfold VQE.vqe, mbind, M_bind, bind, mret, M_ret, ret.
  rewrite quantum_module_identity.
  rewrite (quantum_module_on parameters "Z" (circuit_Z parameters)) by done.
  rewrite (quantum_module_on parameters "X" (circuit_X parameters)) by done.
  rewrite (quantum_module_on parameters "Y" (circuit_Y parameters)) by done.
  simpl. subst r1 r2 r3. by rewrite <- !app_assoc.
Qed.

Lemma Qabs_scaled (b m : Q) : (Qabs m <= 1)%Q → (Qabs (b * m) <= Qabs b)%Q.
Proof.
  intros Hm. rewrite Qabs_Qmult.
  pose proof (Qabs_nonneg b). pose proof (Qabs_nonneg m). nra.
Qed.

Lemma expectation_abs (counts : gmap string Z) :
  counts_nonneg counts → counts_total counts = 1000 →
  (Qabs (expectation counts 1000) <= 1)%Q.
Proof.
  intros Hnn Htot. apply Qabs_Qle_condition.
  pose proof (zero_one_within_total counts Hnn) as (H0 & H1 & Hs).
  rewrite Htot in Hs. by apply ratio_in_unit_range.
Qed.

(** Every circuit that [vqe_circuit] returns starts with the state
    preparation [rx(parameters[0])], [ry(parameters[1])] and ends with its
    only measurement; between them is the basis change of the measurement,
    none for Z, [u2(0, pi)] for X and [u2(0, pi/2)] for Y. Building the
    circuit leaves the backend alone. *)
Theorem vqe_circuit_prepares_then_measures (parameters : Q * Q)
    (measure : string) (w : world) (c : circuit) :
  (vqe_circuit parameters measure w).1 = Ok c →
  (∃ basis,
     (c = (quantum_state_preparation [] parameters ++ basis) ++ [Measure])
     ∧ (Measure ∉ quantum_state_preparation [] parameters ++ basis)
     ∧ (measure = "Z" ∧ basis = []
        ∨ measure = "X" ∧ basis = [U2 0 np_pi]
        ∨ measure = "Y" ∧ basis = [U2 0 (np_pi / 2)]))
  ∧ quantum_state_preparation [] parameters
    = [Rx parameters.1; Ry parameters.2]
  ∧ (vqe_circuit parameters measure w).2
    = World (sim w) (trace w ++ [EvVqeCircuit measure]).
Proof.
  intros Hc.
  pose proof (vqe_circuit_ok_inv np_pi simulator _ _ _ _ Hc) as Hm.
  destruct (vqe_circuit_accepted np_pi simulator parameters measure w Hm)
    as (c' & Hrun & _).
  split; [|split; [done|by rewrite Hrun]].
  rewrite !elem_of_cons, elem_of_nil in Hm.
  destruct (vqe_circuit_result parameters w) as (HZ & HX & HY).
  destruct Hm as [->|[->|[->|[]]]].
  - exists [U2 0 np_pi]. rewrite HX in Hc.
    assert (c = circuit_X parameters) as -> by congruence.
    split; [done|]. split; [|auto].
    unfold quantum_state_preparation. simpl.
    rewrite !elem_of_cons, elem_of_nil. intuition congruence.
  - exists [U2 0 (np_pi / 2)%Q]. rewrite HY in Hc.
    assert (c = circuit_Y parameters) as -> by congruence.
    split; [done|]. split; [|auto].
    unfold quantum_state_preparation. simpl.
    rewrite !elem_of_cons, elem_of_nil. intuition congruence.
  - exists []. rewrite HZ in Hc.
    assert (c = circuit_Z parameters) as -> by congruence.
    split; [done|]. split; [|auto].
    unfold quantum_state_preparation. simpl.
    rewrite !elem_of_cons, elem_of_nil. intuition congruence.
Qed.

(** What [vqe] asks of the backend does not depend on the Hamiltonian: for
    given parameters and a given world, the three estimator values and the
    world left behind are the same for every mapping, and the mapping enters
    the result only through its four coefficients. *)
Theorem vqe_backend_use_ignores_hamiltonian (parameters : Q * Q) (w : world) :
  ∃ mZ mX mY w',
    ∀ pauli_dict : gmap string Q,
      vqe pauli_dict parameters w
      = (Ok (get_or_else_zero pauli_dict "I" * 1
             + get_or_else_zero pauli_dict "Z" * mZ
             + get_or_else_zero pauli_dict "X" * mX
             + get_or_else_zero pauli_dict "Y" * mY)%Q, w').
Proof.
  eexists _, _, _, _. intros pauli_dict. apply vqe_run.
Qed.

(** One evaluation sends exactly three circuits to the backend, for Z, X
    and Y in that order, all built from the same parameters, each with 1000
    shots; every run starts from the backend state the previous one left. *)
Theorem vqe_runs_Z_X_Y_in_order (pauli_dict : gmap string Q)
    (parameters : Q * Q) (w : world) :
  let r1 := get_counts [Rx parameters.1; Ry parameters.2; Measure]
              1000 (sim w) in
  let r2 := get_counts [Rx parameters.1; Ry parameters.2; U2 0 np_pi; Measure]
              1000 r1.2 in
  let r3 := get_counts
              [Rx parameters.1; Ry parameters.2; U2 0 (np_pi / 2); Measure]
              1000 r2.2 in
  executed (trace (vqe pauli_dict parameters w).2)
  = executed (trace w)
      ++ [[Rx parameters.1; Ry parameters.2; Measure];
          [Rx parameters.1; Ry parameters.2; U2 0 np_pi; Measure];
          [Rx parameters.1; Ry parameters.2; U2 0 (np_pi / 2); Measure]]
  ∧ Forall (λ e, match e with EvExecute _ shots => shots = 1000 | _ => True end)
      (drop (length (trace w)) (trace (vqe pauli_dict parameters w).2))
  ∧ sim (vqe pauli_dict parameters w).2 = r3.2.
Proof.
  intros r1 r2 r3. rewrite vqe_run. simpl.
  split; [unfold executed; by rewrite omap_app|].
  split; [|done].
  rewrite drop_app_length. repeat constructor.
Qed.

(** With a backend whose counts are non-negative and add up to the 1000
    shots, the value of [vqe] is at most the sum of the absolute values of
    the four coefficients. *)
Theorem vqe_bounded_by_coefficients (pauli_dict : gmap string Q)
    (parameters : Q * Q) (w : world) :
  (∀ c s, counts_nonneg (get_counts c 1000 s).1
          ∧ counts_total (get_counts c 1000 s).1 = 1000) →
  ∃ e w',
    vqe pauli_dict parameters w = (Ok e, w')
    ∧ (Qabs e <= Qabs (get_or_else_zero pauli_dict "I")
                 + Qabs (get_or_else_zero pauli_dict "Z")
                 + Qabs (get_or_else_zero pauli_dict "X")
                 + Qabs (get_or_else_zero pauli_dict "Y"))%Q.
Proof.
  intros Hb. eexists _, _. split; [apply vqe_run|].
  set (r1 := get_counts _ 1000 (sim w)).
  set (r2 := get_counts _ 1000 r1.2).
  set (r3 := get_counts _ 1000 r2.2).
  pose proof (expectation_abs r1.1 (proj1 (Hb _ _)) (proj2 (Hb _ _))) as H1.
  pose proof (expectation_abs r2.1 (proj1 (Hb _ _)) (proj2 (Hb _ _))) as H2.
  pose proof (expectation_abs r3.1 (proj1 (Hb _ _)) (proj2 (Hb _ _))) as H3.
  set (a := get_or_else_zero pauli_dict "I").
  set (b := get_or_else_zero pauli_dict "Z").
  set (c := get_or_else_zero pauli_dict "X").
  set (d := get_or_else_zero pauli_dict "Y").
  pose proof (Qabs_scaled b _ H1). pose proof (Qabs_scaled c _ H2).
  pose proof (Qabs_scaled d _ H3).
  assert (Ha : (Qabs (a * 1) <= Qabs a)%Q) by (apply Qabs_scaled; by compute).
  pose proof (Qabs_triangle (a * 1 + b * expectation r1.1 1000
                             + c * expectation r2.1 1000)
                (d * expectation r3.1 1000)).
  pose proof (Qabs_triangle (a * 1 + b * expectation r1.1 1000)
                (c * expectation r2.1 1000)).
  pose proof (Qabs_triangle (a * 1) (b * expectation r1.1 1000)).
  lra.
Qed.

Lemma ratio_extremes (n0 n1 : Z) :
  0 ≤ n0 → 0 ≤ n1 → n0 + n1 ≤ 1000 →
  ((inject_Z (n0 - n1) / inject_Z 1000 == 1)%Q ↔ n0 = 1000)
  ∧ ((inject_Z (n0 - n1) / inject_Z 1000 == - (1))%Q ↔ n1 = 1000).
Proof.
  intros H0 H1 Hs. unfold Qeq, Qdiv, Qmult, Qinv, inject_Z. simpl. lia.
Qed.

(** With such counts the estimator returns 1 exactly when all 1000 shots
    gave ["0"], and -1 exactly when all of them gave ["1"]. *)
Theorem expectation_extremes (parameters : Q * Q) (measure : string)
    (w : world) (c : circuit) (counts : gmap string Z) (s' : simulator) :
  (vqe_circuit parameters measure w).1 = Ok c →
  get_counts c 1000 (sim w) = (counts, s') →
  counts_nonneg counts →
  counts_total counts = 1000 →
  ∃ e, (quantum_module parameters measure w).1 = Ok e
       ∧ ((e == 1)%Q ↔ counts !! "0" = Some 1000)
       ∧ ((e == - (1))%Q ↔ counts !! "1" = Some 1000).
Proof.
  intros Hc Hrun Hnn Htot.
  exists (expectation counts 1000).
  split; [by rewrite (quantum_module_on _ _ _ _ Hc), Hrun|].
  pose proof (zero_one_within_total counts Hnn) as (H0 & H1 & Hs).
  rewrite Htot in Hs. unfold expectation.
  destruct (ratio_extremes _ _ H0 H1 Hs) as [Hone Hminus].
  rewrite Hone, Hminus. unfold get_or_else_zero, zero, Zero_Z.
  destruct (counts !! "0") as [n0|], (counts !! "1") as [n1|];
    split; split; intros H; congruence.
Qed.

(** [pauli_operator_to_dict] keeps, for every label, the real part of the
    last term of the list that carries that label, and has no entry for a
    label that no term carries; [get_or_else_zero] then reads that
    coefficient, or 0. *)
Theorem pauli_operator_to_dict_last_wins (paulis : list pauli) (l : string) :
  pauli_operator_to_dict paulis !! l
  = real <$> last (filter (λ x, label x = l) paulis)
  ∧ get_or_else_zero (pauli_operator_to_dict paulis) l
    = from_option real 0%Q (last (filter (λ x, label x = l) paulis)).
Proof.
  assert (Hlookup : pauli_operator_to_dict paulis !! l
                    = real <$> last (filter (λ x, label x = l) paulis)).
  { unfold pauli_operator_to_dict.
    induction paulis as [|x paulis IH] using rev_ind; [done|].
    rewrite foldl_app, filter_app. simpl.
    destruct (decide (label x = l)) as [<-|Hne].
    - rewrite lookup_insert_eq, filter_cons_True by done.
      by rewrite filter_nil, last_snoc.
    - rewrite lookup_insert_ne, filter_cons_False by done.
      by rewrite filter_nil, app_nil_r. }
  split; [done|].
  unfold get_or_else_zero. rewrite Hlookup.
  by destruct (last _).
Qed.

Lemma pauli_operator_to_dict_source (paulis : list pauli) (l : string) (v : Q) :
  pauli_operator_to_dict paulis !! l = Some v →
  ∃ x, x ∈ paulis ∧ label x = l ∧ real x = v.
Proof.
  unfold pauli_operator_to_dict.
  induction paulis as [|y paulis IH] using rev_ind; [done|].
  rewrite foldl_app. simpl. intros Hl.
  destruct (decide (label y = l)) as [<-|Hne].
  - rewrite lookup_insert_eq in Hl. exists y.
    rewrite elem_of_app, list_elem_of_singleton. split; [auto|]. split; congruence.
  - rewrite lookup_insert_ne in Hl by done.
    destruct (IH Hl) as (x & Hx & Hlx & Hvx). exists x.
    rewrite elem_of_app. auto.
Qed.

Lemma pauli_operator_to_dict_present (paulis : list pauli) (x : pauli) :
  x ∈ paulis → is_Some (pauli_operator_to_dict paulis !! label x).
Proof.
  unfold pauli_operator_to_dict.
  induction paulis as [|y paulis IH] using rev_ind;
    [intros Hx; by apply elem_of_nil in Hx|].
  rewrite foldl_app, elem_of_app, list_elem_of_singleton. simpl. intros Hx.
  destruct (decide (label y = label x)) as [Heq|Hne].
  - rewrite Heq, lookup_insert_eq. eauto.
  - rewrite lookup_insert_ne by done. apply IH.
    destruct Hx as [Hx| ->]; [done|congruence].
Qed.

(** What [get_or_else_zero] reads for the label of a term [y] that was
    passed in, when every returned term with that label carries the
    coefficient of [y], and such a term is returned unless the coefficient
    is zero. *)
Lemma coefficient_read_back (returned : list pauli) (y : pauli) :
  (∀ x, x ∈ returned → label x = label y → real x = real y) →
  ((∃ x, x ∈ returned ∧ label x = label y) ∨ (real y == 0)%Q) →
  (get_or_else_zero (pauli_operator_to_dict returned) (label y) == real y)%Q.
Proof.
  intros Hsame Hkept. unfold get_or_else_zero.
  destruct (pauli_operator_to_dict returned !! label y) as [v|] eqn:Hl.
  - destruct (pauli_operator_to_dict_source _ _ _ Hl) as (x & Hx & Hlx & <-).
    by rewrite (Hsame x Hx Hlx).
  - destruct Hkept as [(x & Hx & Hlx)|Hzero].
    + pose proof (pauli_operator_to_dict_present _ _ Hx) as [v Hv].
      rewrite Hlx in Hv. congruence.
    + by rewrite Hzero.
Qed.

(** From the coefficients to the objective. Let [returned] be the list that
    [to_dict()] gives for the operator built by
    [hamiltonian_operator(a, b, c, d)], and suppose the SDK returns only
    terms that were passed in (label and real part) and leaves out a term
    only when its coefficient is zero. Then [pauli_operator_to_dict] followed
    by [get_or_else_zero] reads [a], [b], [c], [d] for I, Z, X, Y, and [vqe]
    returns [a * 1 + b * <Z> + c * <X> + d * <Y>], with the three estimator
    values of the runs for Z, X and Y. *)
Theorem vqe_of_hamiltonian_operator (a b c d : Q) (returned : list pauli)
    (parameters : Q * Q) (w : world) :
  (∀ x, x ∈ returned →
     (label x, real x)
     ∈ (λ y, (label y, real y)) <$> hamiltonian_operator a b c d) →
  (∀ y, y ∈ hamiltonian_operator a b c d →
     (∃ x, x ∈ returned ∧ label x = label y) ∨ (real y == 0)%Q) →
  let r1 := get_counts [Rx parameters.1; Ry parameters.2; Measure]
              1000 (sim w) in
  let r2 := get_counts [Rx parameters.1; Ry parameters.2; U2 0 np_pi; Measure]
              1000 r1.2 in
  let r3 := get_counts
              [Rx parameters.1; Ry parameters.2; U2 0 (np_pi / 2); Measure]
              1000 r2.2 in
  (get_or_else_zero (pauli_operator_to_dict returned) "I" == a)%Q
  ∧ (get_or_else_zero (pauli_operator_to_dict returned) "Z" == b)%Q
  ∧ (get_or_else_zero (pauli_operator_to_dict returned) "X" == c)%Q
  ∧ (get_or_else_zero (pauli_operator_to_dict returned) "Y" == d)%Q
  ∧ ∃ e,
      (vqe (pauli_operator_to_dict returned) parameters w).1 = Ok e
      ∧ (e == a * 1 + b * expectation r1.1 1000 + c * expectation r2.1 1000
              + d * expectation r3.1 1000)%Q.
Proof.
  intros Hfrom Hkept r1 r2 r3.
  assert (Hread : ∀ y, y ∈ hamiltonian_operator a b c d →
            (get_or_else_zero (pauli_operator_to_dict returned) (label y)
             == real y)%Q).
  { intros y Hy. apply coefficient_read_back; [|by apply Hkept].
    intros x Hx Hlx. specialize (Hfrom x Hx). rewrite Hlx in Hfrom.
    unfold hamiltonian_operator in Hfrom, Hy. simpl in Hfrom.
    rewrite !elem_of_cons, elem_of_nil in Hfrom.
    rewrite !elem_of_cons, elem_of_nil in Hy.
    destruct Hy as [->|[->|[->|[->|[]]]]]; simpl in *;
      destruct Hfrom as [H|[H|[H|[H|[]]]]]; congruence. }
  assert (HI := Hread (Pauli "I" a 0)). assert (HZ := Hread (Pauli "Z" b 0)).
  assert (HX := Hread (Pauli "X" c 0)). assert (HY := Hread (Pauli "Y" d 0)).
  simpl in HI, HZ, HX, HY. unfold hamiltonian_operator in HI, HZ, HX, HY.
  rewrite !elem_of_cons in HI, HZ, HX, HY.
  specialize (HI ltac:(auto)). specialize (HZ ltac:(auto)).
  specialize (HX ltac:(auto)). specialize (HY ltac:(auto 6)).
  do 4 (split; [done|]).
  eexists. split; [by rewrite vqe_run|].
  fold r1 r2 r3. by rewrite HI, HZ, HX, HY.
Qed.

End VQE_further.

(** * Further properties of the phase estimation notebook *)

(** The docstring of [simple_hamiltonian_operator] holds of the terms it
    builds: the matrix of the sum is [[E_1, 0], [0, E_2]]. *)
Theorem simple_hamiltonian_diagonal (E_1 E_2 : Q) :
  ((Operators.diagonal (Operators.simple_hamiltonian_operator E_1 E_2)).1
   == E_1)%Q
  ∧ ((Operators.diagonal (Operators.simple_hamiltonian_operator E_1 E_2)).2
     == E_2)%Q.
Proof. unfold Operators.diagonal. simpl. split; field. Qed.

(** [max(items, key=f)] on a non-empty list returns an item of the list
    whose key value is the largest; of several such items it returns the
    first: every item before it has a strictly smaller key value. *)
Lemma max_loop_first_largest (f : string → Z) (items l1 l2 : list string)
    (x : string) :
  (∀ y, y ∈ l1 → f y < f x) →
  (∀ y, y ∈ l2 → f y ≤ f x) →
  ∃ l1' l2',
    l1 ++ x :: l2 ++ items = l1' ++ IPEA.max_loop f items x (f x) :: l2'
    ∧ (∀ y, y ∈ l1' → f y < f (IPEA.max_loop f items x (f x)))
    ∧ (∀ y, y ∈ l2' → f y ≤ f (IPEA.max_loop f items x (f x))).
Proof.
  revert l1 l2 x. induction items as [|item items IH]; intros l1 l2 x H1 H2.
  - exists l1, l2. by rewrite app_nil_r.
  - simpl. case_bool_decide as Hlt.
    + destruct (IH (l1 ++ x :: l2) [] item) as (l1' & l2' & Heq & Hb & Ha).
      * intros y Hy. rewrite elem_of_app, elem_of_cons in Hy.
        destruct Hy as [Hy|[->|Hy]]; [specialize (H1 y Hy)| |specialize (H2 y Hy)];
          lia.
      * intros y Hy. by apply elem_of_nil in Hy.
      * exists l1', l2'. split; [|done].
        rewrite <- Heq. simpl. by rewrite <- !app_assoc.
    + destruct (IH l1 (l2 ++ [item]) x) as (l1' & l2' & Heq & Hb & Ha).
      * done.
      * intros y Hy. rewrite elem_of_app, elem_of_cons, elem_of_nil in Hy.
        destruct Hy as [Hy|[->|[]]]; [by apply H2|lia].
      * exists l1', l2'. split; [|done].
        rewrite <- Heq. by rewrite <- !app_assoc.
Qed.

Theorem max_returns_first_largest (items : list string) (f : string → Z) :
  items ≠ [] →
  ∃ item before after,
    IPEA.max items f = Ok item
    ∧ items = before ++ item :: after
    ∧ (∀ y, y ∈ before → f y < f item)
    ∧ (∀ y, y ∈ after → f y ≤ f item).
Proof.
  intros Hne. destruct items as [|x items]; [done|].
  destruct (max_loop_first_largest f items [] [] x) as (l1 & l2 & Heq & Hb & Ha).
  - intros y Hy. by apply elem_of_nil in Hy.
  - intros y Hy. by apply elem_of_nil in Hy.
  - exists (IPEA.max_loop f items x (f x)), l1, l2. by simpl in *.
Qed.

Lemma u1_angles_app (c1 c2 : IPEA.circuit) :
  (IPEA.u1_angles (c1 ++ c2) == IPEA.u1_angles c1 + IPEA.u1_angles c2)%Q.
Proof.
  induction c1 as [|g c1 IH]; simpl; [ring|].
  destruct g; rewrite ?IH; ring.
Qed.

Lemma u1_angles_replicate (n : nat) :
  IPEA.u1_angles (replicate n IPEA.Control_H) = 0%Q.
Proof. induction n as [|n IH]; [done|]. simpl. exact IH. Qed.

(** Whole and half numbers of turns have the floor one expects. *)
Lemma Qfloor_whole_or_half (x : Q) (j b : Z) :
  b = 0 ∨ b = 1 →
  (x == inject_Z j + inject_Z b / 2)%Q →
  Qfloor x = j.
Proof.
  intros Hb Hx.
  assert (Hhalf : (inject_Z b / 2 == 0)%Q ∨ (inject_Z b / 2 == 1 # 2)%Q)
    by (destruct Hb as [-> | ->]; [by left|by right]).
  assert (Hone : inject_Z 1 = 1%Q) by done.
  assert (Hlo : (inject_Z j <= x)%Q).
  { rewrite Hx. destruct Hhalf as [-> | ->]; lra. }
  assert (Hhi : (x < inject_Z (j + 1))%Q).
  { rewrite Hx, inject_Z_plus, Hone. destruct Hhalf as [-> | ->]; lra. }
  apply Qfloor_resp_le in Hlo. rewrite Qfloor_Z in Hlo.
  pose proof (Qfloor_le x) as Hfl.
  assert (Hlt : (inject_Z (Qfloor x) < inject_Z (j + 1))%Q) by lra.
  rewrite <- Zlt_Qlt in Hlt. lia.
Qed.

Section IPEA_further.

Import IPEA.

Variable np_pi : Q.
Variable simulator : Type.
Variable get_counts : circuit → Z → simulator → counts * simulator.

Local Abbreviation world := (world simulator).
Local Abbreviation k_circ := (k_circ np_pi).
Local Abbreviation iteration := (iteration np_pi simulator get_counts).
Local Abbreviation for_each := (for_each np_pi simulator get_counts).
Local Abbreviation estimate_phase := (estimate_phase np_pi simulator get_counts).
Local Abbreviation notebook := (notebook np_pi simulator get_counts).

(** A failed iteration ends the loop: when the value of some iteration
    cannot be read off the counts, the loop raises that error at once, the
    failing run is the last entry of the trace and no later bit position is
    run. Counts without any outcome fail in this way, with the [ValueError]
    of [max]. *)
Theorem loop_stops_at_failed_iteration (ks1 ks2 : list Z) (k : Z)
    (phase phase1 : Q) (w w1 : world) (e : exn) :
  for_each ks1 phase w = (Ok phase1, w1) →
  measured_value (get_counts (k_circ k phase1) 1000 (sim w1)).1 = Raise e →
  for_each (ks1 ++ k :: ks2) phase w
  = (Raise e,
     World (get_counts (k_circ k phase1) 1000 (sim w1)).2
       (trace w1 ++ [(k_circ k phase1, 1000)]))
  ∧ ((get_counts (k_circ k phase1) 1000 (sim w1)).1 = [] →
     e = ValueError "max() arg is an empty sequence").
Proof.
  intros Hrun He. split.
  - rewrite for_each_app, Hrun. simpl. unfold mbind, M_bind, bind.
    by rewrite iteration_run, He.
  - intros Hempty. rewrite Hempty in He.
    unfold measured_value in He. simpl in He. congruence.
Qed.

Lemma inverse_pow2_positive (n : Z) : 0 ≤ n → (0 < 1 / inject_Z (2 ^ n))%Q.
Proof.
  intros Hn. pose proof (pow2_positive n Hn).
  destruct (2 ^ n) as [|p|p]; try lia. reflexivity.
Qed.

Lemma weight_countdown_Z (n : Z) :
  0 ≤ n →
  (weight (reverse (seqZ 0 n)) == 1 - 1 / inject_Z (2 ^ n))%Q.
Proof.
  intros Hn. pose proof (weight_countdown (Z.to_nat n)) as H.
  by rewrite Z2Nat.id in H.
Qed.

(** The bit positions above [k] can add less than [1/2^(k+1)]. *)
Lemma weight_upper (k n : Z) :
  0 ≤ k < n →
  (weight (reverse (seqZ (k + 1) (n - k - 1)))
   == 1 / inject_Z (2 ^ (k + 1)) - 1 / inject_Z (2 ^ n))%Q.
Proof.
  intros Hk.
  pose proof (weight_countdown_Z n ltac:(lia)) as Hn.
  pose proof (weight_countdown_Z (k + 1) ltac:(lia)) as Hk1.
  replace n with ((k + 1) + (n - k - 1)) in Hn at 1 by lia.
  rewrite seqZ_app, reverse_app, weight_app in Hn by lia.
  rewrite Z.add_0_l in Hn. lra.
Qed.

(** When the iteration for bit position [k] starts, the phase accumulated by
    the positions above [k] is below [1/2^(k+1)]; the angle
    [phase_shift = 2 * pi * phase * 2^k] of its feedback rotation is
    therefore at least 0 and less than [pi], half a turn. *)
Theorem feedback_stays_below_half_turn (num_bits k : Z) (w : world) :
  honest get_counts →
  0 ≤ k < num_bits →
  (0 < np_pi)%Q →
  ∃ phase1 w1,
    for_each (reverse (seqZ (k + 1) (num_bits - k - 1))) 0%Q w = (Ok phase1, w1)
    ∧ estimate_phase num_bits w
      = for_each (k :: reverse (seqZ 0 k)) phase1 w1
    ∧ (0 <= phase1)%Q
    ∧ (phase1 * inject_Z (2 ^ (k + 1)) < 1)%Q
    ∧ (0 <= 2 * np_pi * phase1 * inject_Z (2 ^ k))%Q
    ∧ (2 * np_pi * phase1 * inject_Z (2 ^ k) < np_pi)%Q.
Proof.
  intros Hh Hk Hpi.
  assert (H0 : Forall (λ j, 0 ≤ j) (reverse (seqZ (k + 1) (num_bits - k - 1)))).
  { apply Forall_reverse, Forall_seqZ. lia. }
  destruct (for_each_spec np_pi simulator get_counts _ Hh H0 0%Q w)
    as (phase1 & s1 & new & Hrun & Hlo & Hhi & _).
  exists phase1, (World s1 (trace w ++ new)).
  split; [done|].
  split.
  { unfold IPEA.estimate_phase.
    replace num_bits with ((k + 1) + (num_bits - k - 1)) at 1 by lia.
    rewrite seqZ_app, reverse_app, for_each_app by lia.
    rewrite Z.add_0_l. 
    change (IPEA.for_each np_pi simulator get_counts
              (reverse (seqZ (k + 1) (num_bits - k - 1))) 0%Q w)
      with (for_each (reverse (seqZ (k + 1) (num_bits - k - 1))) 0%Q w).
    rewrite Hrun.
    replace (k + 1) with (Z.of_nat (S (Z.to_nat k))) by lia.
    rewrite reverse_seqZ_succ. by rewrite Z2Nat.id by lia. }
  split; [done|].
  rewrite weight_upper in Hhi by done.
  pose proof (inverse_pow2_positive num_bits ltac:(lia)) as Hn.
  pose proof (pow2_positive k ltac:(lia)) as Hpk.
  assert (HK : (0 < inject_Z (2 ^ k))%Q) by (rewrite <- (Zlt_Qlt 0); lia).
  assert (Hsucc : (inject_Z (2 ^ (k + 1)) == inject_Z (2 ^ k) * 2)%Q).
  { rewrite Z.pow_add_r by lia. by rewrite inject_Z_mult. }
  assert (Hinv : (1 / inject_Z (2 ^ (k + 1)) * inject_Z (2 ^ k) == 1 # 2)%Q).
  { rewrite Hsucc. field. lra. }
  assert (Hhalf : (phase1 * inject_Z (2 ^ k) < 1 # 2)%Q).
  { rewrite <- Hinv. apply Qmult_lt_r; [done|]. lra. }
  split; [rewrite Hsucc; lra|].
  assert (Hx : (0 <= phase1 * inject_Z (2 ^ k))%Q) by nra.
  assert (Heq : (2 * np_pi * phase1 * inject_Z (2 ^ k)
                 == 2 * np_pi * (phase1 * inject_Z (2 ^ k)))%Q) by ring.
  rewrite Heq. revert Hx Hhalf. generalize (phase1 * inject_Z (2 ^ k))%Q.
  intros x Hx Hhalf. split; nra.
Qed.

(** With an honest backend and a positive [pi], the eigenvalue the notebook
    reports is greater than 0 and at most [2 * pi / t] with [t = 1]: no
    phase makes it 0, and it is [2 * pi] exactly for the phase 0. *)
Theorem notebook_eigenvalue_range (w : world) :
  honest get_counts →
  (0 < np_pi)%Q →
  ∃ phase E w',
    estimate_phase num_bits_estimate w = (Ok phase, w')
    ∧ notebook w = (Ok E, w')
    ∧ (0 < E)%Q ∧ (E <= 2 * np_pi)%Q
    ∧ ((E == 2 * np_pi)%Q ↔ (phase == 0)%Q).
Proof.
  intros Hh Hpi.
  assert (H0 : Forall (λ k, 0 ≤ k) (reverse (seqZ 0 num_bits_estimate))).
  { eapply Forall_impl; [apply countdown_range|]. simpl. lia. }
  destruct (for_each_spec np_pi simulator get_counts _ Hh H0 0%Q w)
    as (phase & s' & new & Hrun & Hlo & Hhi & _).
  pose proof (weight_countdown_below_one num_bits_estimate) as Hw.
  exists phase, (2 * np_pi * (1 - phase) / inject_Z t)%Q,
    (World s' (trace w ++ new)).
  split; [done|].
  split.
  { unfold IPEA.notebook, mbind, M_bind, bind.
    change (IPEA.estimate_phase np_pi simulator get_counts num_bits_estimate w)
      with (for_each (reverse (seqZ 0 num_bits_estimate)) 0%Q w).
    by rewrite Hrun. }
  assert (HE : (2 * np_pi * (1 - phase) / inject_Z t
                == 2 * np_pi * (1 - phase))%Q) by (unfold t; field).
  rewrite HE.
  split; [nra|]. split; [nra|].
  split; intros H; nra.
Qed.

(** The turns seen by the measurement of iteration [k]: [2^k] times what
    is left of the eigenphase once the phase found so far is taken off. *)
Lemma turns_k_circ (phi phase : Q) (k : Z) :
  ¬ (np_pi == 0)%Q → 0 ≤ k →
  (turns np_pi phi (k_circ k phase) == inject_Z (2 ^ k) * (phi - phase))%Q.
Proof.
  intros Hpi Hk. unfold turns.
  rewrite k_circ_applications by done.
  rewrite k_circ_shape, !u1_angles_app, u1_angles_replicate. simpl.
  field. done.
Qed.

Lemma for_each_sharp (phi : Q) (n m : Z) (j : nat) :
  ¬ (np_pi == 0)%Q →
  sharp np_pi phi get_counts →
  (phi == inject_Z m / inject_Z (2 ^ n))%Q →
  Z.of_nat j ≤ n →
  ∀ (phase : Q) (w : world),
    (phase == inject_Z (m mod 2 ^ (n - Z.of_nat j)) / inject_Z (2 ^ n))%Q →
    ∃ phase' w',
      for_each (reverse (seqZ 0 (Z.of_nat j))) phase w = (Ok phase', w')
      ∧ (phase' == inject_Z (m mod 2 ^ n) / inject_Z (2 ^ n))%Q.
Proof.
  intros Hpi Hsharp Hphi. induction j as [|j IH]; intros Hj phase w Hphase.
  - exists phase, w. split; [done|]. by rewrite Z.sub_0_r in Hphase.
  - rewrite reverse_seqZ_succ.
    set (k := Z.of_nat j) in *.
    replace (n - Z.of_nat (S j)) with (n - k - 1) in Hphase by lia.
    set (B := 2 ^ (n - k - 1)) in *.
    assert (HB : 0 < B) by (apply pow2_positive; lia).
    pose proof (pow2_positive k ltac:(lia)) as HA.
    assert (Hn : 2 ^ n = 2 ^ k * 2 * B).
    { unfold B. rewrite <- (Z.pow_1_r 2) at 3. rewrite <- !Z.pow_add_r by lia.
      f_equal. lia. }
    set (q := m / B). set (r := m mod B) in *.
    assert (Hm : m = B * (2 * (q / 2) + q mod 2) + r).
    { rewrite <- (Z.div_mod q 2) by lia. unfold q, r. apply Z.div_mod. lia. }
    assert (Hb : q mod 2 = 0 ∨ q mod 2 = 1)
      by (pose proof (Z.mod_pos_bound q 2 ltac:(lia)); lia).
    assert (Hturns :
      (turns np_pi phi (k_circ k phase)
       == inject_Z (q / 2) + inject_Z (q mod 2) / 2)%Q).
    { rewrite turns_k_circ, Hphi, Hphase by (done || lia).
      rewrite Hn. rewrite Hm at 1.
      repeat (rewrite inject_Z_mult || rewrite inject_Z_plus).
      change (inject_Z 2) with 2%Q.
      field. split; apply inject_Z_nonzero; lia. }
    pose proof (Hsharp (k_circ k phase) (sim w) _ _ Hb Hturns) as Hv.
    simpl. unfold mbind, M_bind, bind. rewrite iteration_run, Hv.
    apply IH; [lia|].
    rewrite Hphase, (increment_dyadic (q mod 2) k n) by lia.
    fold B.
    assert (Hmod : m mod 2 ^ (n - k) = r + B * (q mod 2)).
    { replace (n - k) with ((n - k - 1) + 1) by lia.
      rewrite Z.pow_add_r by lia. fold B. change (2 ^ 1) with 2.
      unfold r, q. apply Z.rem_mul_r; lia. }
    rewrite Hmod, inject_Z_plus, !inject_Z_mult.
    field. apply inject_Z_nonzero. lia.
Qed.

(** The loop recovers a phase of [num_bits] binary digits exactly: with a
    backend that is sharp for the eigenphase [m / 2^num_bits], the feedback
    rotations cancel the digits already found, every iteration reads off the
    next one, and the loop returns [m / 2^num_bits]. *)
Theorem sharp_backend_recovers_dyadic_phase (phi : Q) (num_bits m : Z)
    (w : world) :
  ¬ (np_pi == 0)%Q →
  sharp np_pi phi get_counts →
  0 ≤ num_bits →
  0 ≤ m < 2 ^ num_bits →
  (phi == inject_Z m / inject_Z (2 ^ num_bits))%Q →
  ∃ phase w',
    estimate_phase num_bits w = (Ok phase, w')
    ∧ (phase == phi)%Q.
Proof.
  intros Hpi Hsharp Hn Hm Hphi.
  destruct (for_each_sharp phi num_bits m (Z.to_nat num_bits) Hpi Hsharp Hphi
              ltac:(lia) 0%Q w) as (phase & w' & Hrun & Heq).
  { rewrite Z2Nat.id, Z.sub_diag by lia. by rewrite Z.mod_1_r. }
  exists phase, w'. split.
  - unfold IPEA.estimate_phase. by rewrite Z2Nat.id in Hrun by lia.
  - rewrite Heq, Hphi. by rewrite Z.mod_small by lia.
Qed.

End IPEA_further.

(** The estimator reads only the outcomes ["0"] and ["1"] and always
    divides by the 1000 shots it asked for: two backends whose counts for the
    circuit differ only in an entry for some other outcome give the same
    value, whatever the counts add up to. *)
Theorem estimator_ignores_other_outcomes (np_pi : Q) (simulator : Type)
    (get_counts get_counts' : VQE.circuit → Z → simulator → gmap string Z * simulator)
    (parameters : Q * Q) (measure : string) (w : VQE.world simulator)
    (c : VQE.circuit) (outcome : string) (n : Z) :
  (VQE.vqe_circuit np_pi simulator parameters measure w).1 = Ok c →
  outcome ≠ "0" → outcome ≠ "1" →
  (get_counts' c 1000 (VQE.sim w)).1
  = <[outcome := n]> (get_counts c 1000 (VQE.sim w)).1 →
  (VQE.quantum_module np_pi simulator get_counts' parameters measure w).1
  = (VQE.quantum_module np_pi simulator get_counts parameters measure w).1
  ∧ (VQE.quantum_module np_pi simulator get_counts parameters measure w).1
    = Ok (Qdiv
            (inject_Z (default 0 ((get_counts c 1000 (VQE.sim w)).1 !! "0")
                       - default 0 ((get_counts c 1000 (VQE.sim w)).1 !! "1")))
            (inject_Z 1000)).
Proof.
  intros Hc H0 H1 Hins.
  rewrite !(quantum_module_on np_pi simulator _ parameters measure c w Hc).
  simpl. rewrite Hins. unfold VQE.expectation, VQE.get_or_else_zero.
  rewrite !lookup_insert_ne by done.
  split; [done|].
  by destruct (_ !! "0"), (_ !! "1").
Qed.

(** ** The further properties on concrete backends *)

Lemma demo_backend_counts (c : VQE.circuit) (s : nat) :
  VQE.counts_nonneg (VQE.demo_backend c 1000 s).1
  ∧ VQE.counts_total (VQE.demo_backend c 1000 s).1 = 1000.
Proof.
  unfold VQE.demo_backend, VQE.counts_nonneg.
  destruct (VQE.has_u2 c); simpl;
    (split; [apply (bool_decide_unpack _); vm_compute; exact I | reflexivity]).
Qed.

Lemma ideal_backend_sharp (np_pi phi : Q) :
  IPEA.sharp np_pi phi (IPEA.ideal_backend np_pi phi).
Proof.
  intros c s j b Hb Ht. unfold IPEA.ideal_backend.
  change (inject_Z (IPEA.applications c) * phi
          + IPEA.u1_angles c / (2 * np_pi))%Q with (IPEA.turns np_pi phi c).
  rewrite (Qfloor_whole_or_half _ j b Hb Ht).
  assert (Hfrac : (IPEA.turns np_pi phi c - inject_Z j == inject_Z b / 2)%Q)
    by (rewrite Ht; ring).
  set (frac := (IPEA.turns np_pi phi c - inject_Z j)%Q) in *.
  assert (H0 : (inject_Z 0 / 2 == 0)%Q) by reflexivity.
  assert (H1 : (inject_Z 1 / 2 == 1 # 2)%Q) by reflexivity.
  destruct (Qle_bool (1 # 4) frac) eqn:Elo;
    destruct (Qle_bool (3 # 4) frac) eqn:Ehi; simpl;
    try apply Qle_bool_iff in Elo; try apply Qle_bool_iff in Ehi;
    try (apply not_true_iff_false in Elo; rewrite Qle_bool_iff in Elo);
    try (apply not_true_iff_false in Ehi; rewrite Qle_bool_iff in Ehi);
    destruct Hb as [-> | ->]; try reflexivity; exfalso;
    rewrite ?H0, ?H1 in Hfrac; lra.
Qed.

Lemma vqe_circuit_prepares_then_measures_witness :
  (VQE.vqe_circuit VQE.float_pi nat (1%Q, 2%Q) "Y" VQE.demo_world).2
  = VQE.World 0%nat ([] ++ [VQE.EvVqeCircuit "Y"]).
Proof.
  refine (proj2 (proj2 (vqe_circuit_prepares_then_measures VQE.float_pi nat
            VQE.demo_backend (1%Q, 2%Q) "Y" VQE.demo_world
            [VQE.Rx 1; VQE.Ry 2; VQE.U2 0 (VQE.float_pi / 2); VQE.Measure] _))).
  reflexivity.
Defined.

Lemma vqe_bounded_by_coefficients_witness :
  ∃ e,
    (VQE.vqe VQE.float_pi nat VQE.demo_backend
       {[ "I" := (2 # 5)%Q; "Z" := (3 # 5)%Q; "X" := (4 # 5)%Q ]}
       (0%Q, 0%Q) VQE.demo_world).1 = Ok e
    ∧ (Qabs e <= Qabs (2 # 5) + Qabs (3 # 5) + Qabs (4 # 5) + Qabs 0)%Q.
Proof.
  destruct (vqe_bounded_by_coefficients VQE.float_pi nat VQE.demo_backend
              {[ "I" := (2 # 5)%Q; "Z" := (3 # 5)%Q; "X" := (4 # 5)%Q ]}
              (0%Q, 0%Q) VQE.demo_world demo_backend_counts)
    as (e & w' & Hrun & Hbound).
  exists e. rewrite Hrun. split; [done|exact Hbound].
Defined.

Lemma expectation_extremes_witness :
  ∃ e,
    (VQE.quantum_module VQE.float_pi nat VQE.demo_backend (0%Q, 0%Q) "Z"
       VQE.demo_world).1 = Ok e
    ∧ ((e == 1)%Q ↔ ({[ "0" := 1000 ]} : gmap string Z) !! "0" = Some 1000).
Proof.
  destruct (expectation_extremes VQE.float_pi nat VQE.demo_backend
              (0%Q, 0%Q) "Z" VQE.demo_world
              [VQE.Rx 0; VQE.Ry 0; VQE.Measure] {[ "0" := 1000 ]} 1%nat)
    as (e & Hrun & Hone & _).
  - reflexivity.
  - reflexivity.
  - unfold VQE.counts_nonneg. apply (bool_decide_unpack _). vm_compute. exact I.
  - reflexivity.
  - exists e. split; [exact Hrun|exact Hone].
Defined.

Lemma max_returns_first_largest_witness :
  ∃ item before after,
    IPEA.max ["1"; "0"] (IPEA.get [("1", 500); ("0", 500)]) = Ok item
    ∧ ["1"; "0"] = before ++ item :: after.
Proof.
  destruct (max_returns_first_largest ["1"; "0"]
              (IPEA.get [("1", 500); ("0", 500)]))
    as (item & before & after & Hmax & Heq & _); [discriminate|].
  exists item, before, after. split; [exact Hmax|exact Heq].
Defined.

Lemma loop_stops_at_failed_iteration_witness :
  IPEA.for_each IPEA.float_pi nat IPEA.silent_backend ([] ++ 2 :: [1; 0]) 0%Q
    IPEA.demo_world
  = (Raise (ValueError "max() arg is an empty sequence"),
     IPEA.World 1%nat ([] ++ [(IPEA.k_circ IPEA.float_pi 2 0%Q, 1000)])).
Proof.
  refine (proj1 (loop_stops_at_failed_iteration IPEA.float_pi nat
            IPEA.silent_backend [] [1; 0] 2 0%Q 0%Q IPEA.demo_world
            IPEA.demo_world (ValueError "max() arg is an empty sequence") _ _));
    reflexivity.
Defined.

Lemma feedback_stays_below_half_turn_witness :
  ∃ phase1,
    (IPEA.for_each IPEA.float_pi nat
       (IPEA.ideal_backend IPEA.float_pi (5 # 8))
       (reverse (seqZ (1 + 1) (3 - 1 - 1))) 0%Q IPEA.demo_world).1
    = Ok phase1
    ∧ (2 * IPEA.float_pi * phase1 * inject_Z (2 ^ 1) < IPEA.float_pi)%Q.
Proof.
  destruct (feedback_stays_below_half_turn IPEA.float_pi nat
              (IPEA.ideal_backend IPEA.float_pi (5 # 8)) 3 1 IPEA.demo_world
              (ideal_backend_honest _ _) ltac:(lia) ltac:(reflexivity))
    as (phase1 & w1 & Hrun & _ & _ & _ & _ & Hlt).
  exists phase1. rewrite Hrun. split; [done|exact Hlt].
Defined.

Lemma notebook_eigenvalue_range_witness :
  ∃ E,
    (IPEA.notebook IPEA.float_pi nat
       (IPEA.ideal_backend IPEA.float_pi (5 # 8)) IPEA.demo_world).1 = Ok E
    ∧ (0 < E)%Q ∧ (E <= 2 * IPEA.float_pi)%Q.
Proof.
  destruct (notebook_eigenvalue_range IPEA.float_pi nat
              (IPEA.ideal_backend IPEA.float_pi (5 # 8)) IPEA.demo_world
              (ideal_backend_honest _ _) ltac:(reflexivity))
    as (phase & E & w' & _ & Hnb & Hpos & Hle & _).
  exists E. rewrite Hnb. auto.
Defined.

Lemma sharp_backend_recovers_dyadic_phase_witness :
  ∃ phase,
    (IPEA.estimate_phase IPEA.float_pi nat
       (IPEA.ideal_backend IPEA.float_pi (5 # 8)) 3 IPEA.demo_world).1
    = Ok phase
    ∧ (phase == 5 # 8)%Q.
Proof.
  destruct (sharp_backend_recovers_dyadic_phase IPEA.float_pi nat
              (IPEA.ideal_backend IPEA.float_pi (5 # 8)) (5 # 8) 3 5
              IPEA.demo_world)
    as (phase & w' & Hrun & Heq).
  - discriminate.
  - apply ideal_backend_sharp.
  - lia.
  - lia.
  - reflexivity.
  - exists phase. rewrite Hrun. split; [done|exact Heq].
Defined.

Lemma estimator_ignores_other_outcomes_witness :
  (VQE.quantum_module VQE.float_pi nat
     (λ c shots s, (<[ "2" := 7 ]> (VQE.demo_backend c shots s).1, S s))
     (0%Q, 0%Q) "X" VQE.demo_world).1
  = (VQE.quantum_module VQE.float_pi nat VQE.demo_backend
       (0%Q, 0%Q) "X" VQE.demo_world).1.
Proof.
  refine (proj1 (estimator_ignores_other_outcomes VQE.float_pi nat
            VQE.demo_backend
            (λ c shots s, (<[ "2" := 7 ]> (VQE.demo_backend c shots s).1, S s))
            (0%Q, 0%Q) "X" VQE.demo_world
            [VQE.Rx 0; VQE.Ry 0; VQE.U2 0 VQE.float_pi; VQE.Measure]
            "2" 7 _ _ _ _)); (reflexivity || discriminate).
Defined.

Lemma vqe_of_hamiltonian_operator_witness :
  (VQE.get_or_else_zero
     (Operators.pauli_operator_to_dict
        [Operators.Pauli "I" (2 # 5) 0; Operators.Pauli "Z" (3 # 5) 0;
         Operators.Pauli "X" (4 # 5) 0]) "Y" == 0)%Q.
Proof.
  refine (proj1 (proj2 (proj2 (proj2
            (vqe_of_hamiltonian_operator VQE.float_pi nat VQE.demo_backend
               (2 # 5) (3 # 5) (4 # 5) 0
               [Operators.Pauli "I" (2 # 5) 0; Operators.Pauli "Z" (3 # 5) 0;
                Operators.Pauli "X" (4 # 5) 0]
               (0%Q, 0%Q) VQE.demo_world _ _))))).
  - intros x Hx. rewrite !elem_of_cons, elem_of_nil in Hx.
    unfold Operators.hamiltonian_operator. simpl. rewrite !elem_of_cons.
    destruct Hx as [->|[->|[->|[]]]]; simpl; auto.
  - intros y Hy. unfold Operators.hamiltonian_operator in Hy.
    rewrite !elem_of_cons, elem_of_nil in Hy.
    destruct Hy as [->|[->|[->|[->|[]]]]]; simpl.
    + left. exists (Operators.Pauli "I" (2 # 5) 0).
      rewrite !elem_of_cons. auto.
    + left. exists (Operators.Pauli "Z" (3 # 5) 0).
      rewrite !elem_of_cons. auto.
    + left. exists (Operators.Pauli "X" (4 # 5) 0).
      rewrite !elem_of_cons. auto.
    + right. reflexivity.
Defined.
